(** * CellRank kernels: CytoTRACE score and density normalisation

    A shallow embedding of
      - [src/cellrank/tl/kernels/_cytotrace_kernel.py]
        ([CytoTRACEKernel._compute_score], [CytoTRACEKernel.compute_cytotrace]),
      - [src/cellrank/tl/kernels/_mixins.py]
        ([ConnectivityMixin._density_normalize]),
    and the properties of these functions.

    Numeric arrays hold [float64] values.  They are modelled as exact
    rationals extended with the three IEEE special values, so that the
    results of dividing by zero ([inf], [nan]) are part of the model;
    rounding is not. *)

From Stdlib Require Import QArith Qcanon.
From stdpp Require Import gmap strings list numbers sorting.

Local Open Scope Qc_scope.

(** ** Floating-point values *)

Inductive float64 : Type :=
  | Fin (q : Qc)
  | PInf
  | NInf
  | NaN.

Global Instance float64_eq_dec : EqDecision float64.
Proof. solve_decision. Defined.

Definition isnan (x : float64) : bool :=
  match x with NaN => true | _ => false end.

Definition isfinite (x : float64) : bool :=
  match x with Fin _ => true | _ => false end.

Definition Qc_ltb (a b : Qc) : bool := bool_decide (a < b).
Definition Qc_leb (a b : Qc) : bool := bool_decide (a ≤ b).
Definition Qc_eqb (a b : Qc) : bool := bool_decide (a = b).

Definition fopp (x : float64) : float64 :=
  match x with
  | Fin a => Fin (- a)
  | PInf => NInf
  | NInf => PInf
  | NaN => NaN
  end.

Definition fadd (x y : float64) : float64 :=
  match x, y with
  | NaN, _ | _, NaN => NaN
  | Fin a, Fin b => Fin (a + b)
  | PInf, NInf | NInf, PInf => NaN
  | PInf, _ | _, PInf => PInf
  | NInf, _ | _, NInf => NInf
  end.

Definition fsub (x y : float64) : float64 := fadd x (fopp y).

(** The infinity whose sign is the sign of the finite, non-zero [a]. *)
Definition signed_inf (a : Qc) : float64 :=
  if Qc_ltb 0 a then PInf else NInf.

Definition fmul (x y : float64) : float64 :=
  match x, y with
  | NaN, _ | _, NaN => NaN
  | Fin a, Fin b => Fin (a * b)
  | Fin a, PInf | PInf, Fin a =>
      if Qc_eqb a 0 then NaN else signed_inf a
  | Fin a, NInf | NInf, Fin a =>
      if Qc_eqb a 0 then NaN else signed_inf (- a)
  | PInf, PInf | NInf, NInf => PInf
  | PInf, NInf | NInf, PInf => NInf
  end.

(** Division as numpy performs it on [float64] arrays: dividing by zero
    does not raise, it yields [inf] (or [nan] for [0 / 0]).  Zero is
    unsigned in the model and behaves like [+0.0]. *)
Definition fdiv (x y : float64) : float64 :=
  match x, y with
  | NaN, _ | _, NaN => NaN
  | Fin a, Fin b =>
      if Qc_eqb b 0
      then (if Qc_eqb a 0 then NaN else signed_inf a)
      else Fin (a / b)
  | Fin _, (PInf | NInf) => Fin 0
  | PInf, Fin b => if Qc_ltb b 0 then NInf else PInf
  | NInf, Fin b => if Qc_ltb b 0 then PInf else NInf
  | (PInf | NInf), (PInf | NInf) => NaN
  end.

(** Comparisons; every comparison with [nan] is false. *)
Definition fle (x y : float64) : bool :=
  match x, y with
  | NaN, _ | _, NaN => false
  | NInf, _ | _, PInf => true
  | Fin a, Fin b => Qc_leb a b
  | _, _ => false
  end.

Definition flt (x y : float64) : bool :=
  match x, y with
  | NaN, _ | _, NaN => false
  | Fin a, Fin b => Qc_ltb a b
  | NInf, NInf | PInf, PInf => false
  | NInf, _ | _, PInf => true
  | _, _ => false
  end.

(** [np.minimum] and [np.maximum]: [nan] propagates. *)
Definition fminimum (x y : float64) : float64 :=
  if isnan x then x else if isnan y then y else if fle x y then x else y.

Definition fmaximum (x y : float64) : float64 :=
  if isnan x then x else if isnan y then y else if fle x y then y else x.

Definition of_Z (n : Z) : float64 := Fin (Qc_of_Z n).
Definition of_nat (n : nat) : float64 := of_Z (Z.of_nat n).

(** A boolean equality that evaluates, for checking concrete results. *)
Definition float64_eqb (x y : float64) : bool :=
  match x, y with
  | Fin a, Fin b => Qeq_bool (this a) (this b)
  | PInf, PInf | NInf, NInf | NaN, NaN => true
  | _, _ => false
  end.

Lemma float64_eqb_eq x y : float64_eqb x y = true → x = y.
Proof.
  destruct x, y; simpl; try done.
  intros H. f_equal. apply Qc_is_canon. by apply Qeq_bool_iff.
Qed.

Fixpoint floats_eqb (l k : list float64) : bool :=
  match l, k with
  | [], [] => true
  | x :: l, y :: k => float64_eqb x y && floats_eqb l k
  | _, _ => false
  end.

Lemma floats_eqb_eq l k : floats_eqb l k = true → l = k.
Proof.
  revert k. induction l as [|x l IH]; intros [|y k]; simpl; try done.
  intros [H1 H2]%andb_true_iff. f_equal; [by apply float64_eqb_eq | by apply IH].
Qed.

Example fdiv_zero_zero : fdiv (Fin 0) (Fin 0) = NaN.
Proof. vm_compute. reflexivity. Qed.

Example fdiv_one_zero : fdiv (Fin 1) (Fin 0) = PInf.
Proof. vm_compute. reflexivity. Qed.

Example fdiv_half : fdiv (Fin 1) (Fin 2) = Fin (Q2Qc (1 # 2)).
Proof. apply float64_eqb_eq. vm_compute. reflexivity. Qed.

(** ** Exceptions and results *)

Inductive value_error : Type :=
  | InvalidOption (given : string)
      (* raised by the enumeration constructor on an unknown mode *)
  | NonPositiveTopGenes (ascending : bool) (n_top_genes : Z)
  | NaNInTopGenes (ascending : bool) (n_selected invalid_genes : nat)
  | NoGenesSelected
  | ZeroSizeReduction
      (* numpy: reduction [minimum]/[maximum] of an empty array *)
  | DimensionMismatch
  | LibraryError.
      (* raised inside an external numeric routine *)

Inductive exn : Type :=
  | ValueError (why : value_error)
  | KeyError (key : option string)
  | IndexError.

Inductive result (A : Type) : Type :=
  | Ok (a : A)
  | Raise (e : exn).
Arguments Ok {A} a.
Arguments Raise {A} e.

Global Instance result_ret : MRet result := λ A a, Ok a.
Global Instance result_bind : MBind result := λ A B f r,
  match r with Ok a => f a | Raise e => Raise e end.

Definition is_ok {A} (r : result A) : bool :=
  match r with Ok _ => true | Raise _ => false end.

(** [mapM] for [result]: the first failure aborts. *)
Fixpoint traverse {A B} (f : A → result B) (l : list A) : result (list B) :=
  match l with
  | [] => Ok []
  | x :: l => y ← f x; ys ← traverse f l; Ok (y :: ys)
  end.

(** ** Arrays *)

(** A two-dimensional array, row-major: one row per cell. *)
Abbreviation matrix := (list (list float64)).

(** A [pandas.Series] of correlations: labels with values, in order. *)
Abbreviation Series := (list (string * float64)).

(** [ndarray.min()] and [ndarray.max()]: a zero-size array has no
    minimum and numpy raises [ValueError]. *)
Definition np_min (v : list float64) : result float64 :=
  match v with
  | [] => Raise (ValueError ZeroSizeReduction)
  | x :: v => Ok (foldl fminimum x v)
  end.

Definition np_max (v : list float64) : result float64 :=
  match v with
  | [] => Raise (ValueError ZeroSizeReduction)
  | x :: v => Ok (foldl fmaximum x v)
  end.

Definition fsum (v : list float64) : float64 := foldl fadd (Fin 0) v.

(** Row aggregations of numpy ([mean], [median] along [axis=1]). *)
Definition mean_row (r : list float64) : float64 :=
  fdiv (fsum r) (of_nat (length r)).

Definition fle_rel (x y : float64) : Prop := fle x y = true.

Global Instance fle_rel_dec : RelDecision fle_rel.
Proof. intros x y. unfold fle_rel. apply _. Defined.

Definition median_row (r : list float64) : float64 :=
  if existsb isnan r then NaN
  else
    let s := merge_sort fle_rel r in
    let n := length s in
    if Nat.even n
    then fdiv (fadd (default NaN (s !! (n / 2 - 1)%nat))
                    (default NaN (s !! (n / 2)%nat))) (Fin 2)
    else default NaN (s !! (n / 2)%nat).

(** ** The annotated-data store *)

Inductive column : Type :=
  | FloatCol (v : list float64)
  | IntCol (v : list nat)
  | BoolCol (v : list bool).

Inductive CytoTRACEAggregation : Type := MEAN | MEDIAN | GMEAN | HMEAN.

Global Instance CytoTRACEAggregation_eq_dec : EqDecision CytoTRACEAggregation.
Proof. solve_decision. Defined.

(** The record stored under [uns['ct_params']]. *)
Record ct_params : Type := {
  p_aggregation : CytoTRACEAggregation;
  p_layer : option string;
  p_use_raw : bool;
  p_n_pos_genes : nat;
  p_n_neg_genes : nat;
}.

Record Raw : Type := {
  raw_X : matrix;
  raw_var_names : list string;
}.

Record AnnData : Type := {
  X : matrix;
  var_names : list string;
  raw : option Raw;
  layers : gmap string matrix;
  obs : gmap string column;
  var : gmap string column;
  uns : gmap string ct_params;
}.

(** ** Logging *)

Inductive message : Type :=
  | RawIsNone
  | ComputingScore (n_vars : nat)
  | CorrelatingGenes
  | ReducedTopGenes (ascending : bool) (n_top_genes : Z) (n_used : nat)
  | Finish.

Inductive log_record : Type :=
  | Warning (m : message)
  | Info (m : message)
  | Debug (m : message).

(** ** Computations on the kernel: state and exceptions

    A method of the kernel reads and mutates [self.adata] in place and
    writes to the logger; it returns normally or raises.  When it raises,
    what was written before stays written. *)

Record world : Type := {
  adata : AnnData;
  logs : list log_record;
}.

Definition exec (A : Type) : Type := world → result A * world.

Global Instance exec_ret : MRet exec := λ A a w, (Ok a, w).
Global Instance exec_bind : MBind exec := λ A B f m w,
  match m w with
  | (Ok a, w') => f a w'
  | (Raise e, w') => (Raise e, w')
  end.

Definition raise {A} (e : exn) : exec A := λ w, (Raise e, w).
Definition lift {A} (r : result A) : exec A := λ w, (r, w).
Definition get_adata : exec AnnData := λ w, (Ok (adata w), w).
Definition modify_adata (f : AnnData → AnnData) : exec () :=
  λ w, (Ok (), {| adata := f (adata w); logs := logs w |}).
Definition logg (r : log_record) : exec () :=
  λ w, (Ok (), {| adata := adata w; logs := logs w ++ [r] |}).

Definition set_obs (k : string) (c : column) (a : AnnData) : AnnData :=
  {| X := X a; var_names := var_names a; raw := raw a; layers := layers a;
     obs := <[k := c]> (obs a); var := var a; uns := uns a |}.

Definition set_var (k : string) (c : column) (a : AnnData) : AnnData :=
  {| X := X a; var_names := var_names a; raw := raw a; layers := layers a;
     obs := obs a; var := <[k := c]> (var a); uns := uns a |}.

Definition set_uns (k : string) (p : ct_params) (a : AnnData) : AnnData :=
  {| X := X a; var_names := var_names a; raw := raw a; layers := layers a;
     obs := obs a; var := var a; uns := <[k := p]> (uns a) |}.

(** [adata.var.loc[genes, k] = True]: the rows labelled by one of
    [genes] are set, the others keep their value. *)
Definition loc_set_true (names genes : list string) (c : column) : column :=
  match c with
  | BoolCol v =>
      BoolCol (zip_with (λ g b, if decide (g ∈ genes) then true else b) names v)
  | _ => c
  end.

Definition var_loc_set_true (genes : list string) (k : string)
    (a : AnnData) : AnnData :=
  {| X := X a; var_names := var_names a; raw := raw a; layers := layers a;
     obs := obs a;
     var := alter (loc_set_true (var_names a) genes) k (var a);
     uns := uns a |}.

(** [adata.var[k] = series]: the assigned series is aligned on the
    gene labels of the frame; a gene absent from the series gets [nan]. *)
Definition series_get (s : Series) (g : string) : option float64 :=
  match list_find (λ e, e.1 = g) s with
  | Some (_, e) => Some e.2
  | None => None
  end.

Definition align (names : list string) (s : Series) : list float64 :=
  map (λ g, default NaN (series_get s g)) names.

(** ** Library routines the kernel calls

    The correlation test ([cellrank.tl._utils._correlation_test]), the
    sort behind [pandas.Series.sort_values] (called with its default
    [kind]) and scipy's [gmean] and [hmean] are library calls.  The
    kernel is modelled over any implementation of them. *)

Class Externals : Type := {
  (* [_correlation_test(X, Lineage(num_exp_genes[:, None]), gene_names)["gene_corr"]] *)
  _correlation_test : matrix → list nat → list string → Series;
  (* [series.sort_values(ascending=ascending)] *)
  sort_values : bool → Series → Series;
  (* [scipy.stats.gmean], [scipy.stats.hmean] on one row *)
  gmean_row : list float64 → result float64;
  hmean_row : list float64 → result float64;
}.

(** What pandas documents of [sort_values]: the result is a rearrangement
    of the series, its defined values come first, ordered in the
    requested direction, and the undefined ones are put last.  The
    default sort kind is not a stable one, so nothing is said about the
    order of equal values. *)
Definition in_direction (ascending : bool) (x y : float64) : Prop :=
  if ascending then fle x y = true else fle y x = true.

Record sort_values_spec `{Externals} : Prop := {
  sort_values_perm ascending s : sort_values ascending s ≡ₚ s;
  sort_values_sorted ascending s :
    ∃ good bad,
      sort_values ascending s = good ++ bad
      ∧ Forall (λ e, isnan e.2 = false) good
      ∧ Forall (λ e, isnan e.2 = true) bad
      ∧ Sorted (λ e1 e2, in_direction ascending e1.2 e2.2) good;
}.

(** ** Keys of the store

    Modelled from the spec: [cellrank._key.Key] is not among the sources;
    the docstring of [compute_cytotrace] gives the keys it produces
    (['ct_score'], ['ct_pseudotime'], ...). *)
Module Key.
Definition cytotrace (k : string) : string := "ct_" +:+ k.
End Key.

(** Modelled from the spec: [cellrank.tl._enum.ModeEnum] is not among the
    sources; the enumeration constructor accepts the four documented
    option names and fails on anything else. *)
Definition CytoTRACEAggregation_of (s : string) : result CytoTRACEAggregation :=
  if decide (s = "mean") then Ok MEAN
  else if decide (s = "median") then Ok MEDIAN
  else if decide (s = "gmean") then Ok GMEAN
  else if decide (s = "hmean") then Ok HMEAN
  else Raise (ValueError (InvalidOption s)).

(** ** Slicing the store by gene *)

Definition var_index (names : list string) (g : string) : result nat :=
  match list_find (λ n, n = g) names with
  | Some (i, _) => Ok i
  | None => Raise (KeyError (Some g))
  end.

Definition take_columns (idx : list nat) (M : matrix) : result matrix :=
  traverse (λ row,
    traverse (λ i, match row !! i with
                   | Some x => Ok x
                   | None => Raise IndexError
                   end) idx) M.

(** [series.loc[labels]]: the entries carrying each label, label by label. *)
Definition loc (s : Series) (labels : list string) : Series :=
  labels ≫= λ g, filter (λ e, e.1 = g) s.

Section Kernel.
Context `{Externals}.

(** ** [CytoTRACEKernel._compute_score] *)

(** Lines 147-166: the choice of the top correlated genes. *)
Definition select_top_genes (gene_corr : Series) (ascending : bool)
    (n_top_genes : Z) : exec (list string) :=
  if bool_decide (n_top_genes ≤ 0)%Z
  then raise (ValueError (NonPositiveTopGenes ascending n_top_genes))
  else
    a ← get_adata;
    let top_genes :=
      filter (λ g, g ∈ var_names a) (sort_values ascending gene_corr).*1 in
    let top_genes := take (Z.to_nat n_top_genes) top_genes in
    let invalid_genes := length (filter (λ e, isnan e.2 = true) (loc gene_corr top_genes)) in
    if negb (invalid_genes =? 0)%nat
    then raise (ValueError (NaNInTopGenes ascending (length top_genes) invalid_genes))
    else if (length top_genes =? 0)%nat
    then raise (ValueError NoGenesSelected)
    else
      _ ← (if bool_decide (Z.of_nat (length top_genes) ≠ n_top_genes)
           then logg (Warning (ReducedTopGenes ascending n_top_genes (length top_genes)))
           else mret ());
      mret top_genes.

(** Lines 169-188: the expression of the chosen genes, aggregated per cell. *)
Definition aggregate (aggregation : CytoTRACEAggregation)
    (imputed_exp : matrix) : result (list float64) :=
  match aggregation with
  | MEAN => Ok (map mean_row imputed_exp)
  | MEDIAN => Ok (map median_row imputed_exp)
  | GMEAN => traverse gmean_row imputed_exp
  | HMEAN => traverse hmean_row imputed_exp
  end.

Definition _compute_score (gene_corr : Series) (layer : option string)
    (aggregation : CytoTRACEAggregation) (ascending : bool)
    (n_top_genes : Z) : exec (list float64 * list string) :=
  top_genes ← select_top_genes gene_corr ascending n_top_genes;
  a ← get_adata;
  (* the view [self.adata[:, top_genes]] *)
  idx ← lift (traverse (var_index (var_names a)) top_genes);
  full ← (if decide (layer = Some "X") then mret (X a)
          else match layer ≫= λ l, layers a !! l with
               | Some M => mret M
               | None => raise (KeyError layer)
               end);
  imputed_exp ← lift (take_columns idx full);
  cytotrace_score ← lift (aggregate aggregation imputed_exp);
  mret (cytotrace_score, top_genes).

(** ** [CytoTRACEKernel.compute_cytotrace] *)

(** [layer in self.adata.layers]; the keys of [layers] are strings, so
    [None] is never one of them. *)
Definition in_layers (a : AnnData) (layer : option string) : bool :=
  match layer with
  | Some l => bool_decide (is_Some (layers a !! l))
  | None => false
  end.

(** Line 261: the check of the layer name. *)
Definition check_layer (layer : option string) : exec () :=
  a ← get_adata;
  if bool_decide (layer ∉ [None; Some "X"]) && negb (in_layers a layer)
  then raise (KeyError layer)
  else mret ().

(** Lines 283-298: the score before normalisation. *)
Definition combined_score (gene_corr : Series) (layer : option string)
    (aggregation : CytoTRACEAggregation) (n_pos_genes : Z)
    (n_neg_genes : option Z)
    : exec (list float64 * list string * option (list string)) :=
  '(cytotrace_score, pos_top_genes) ←
     _compute_score gene_corr layer aggregation false n_pos_genes;
  match n_neg_genes with
  | Some n_neg_genes =>
      '(inv_score, neg_top_genes) ←
         _compute_score gene_corr layer aggregation true n_neg_genes;
      m ← lift (np_max inv_score);
      mret (zip_with fadd cytotrace_score (map (fsub m) inv_score),
            pos_top_genes, Some neg_top_genes)
  | None => mret (cytotrace_score, pos_top_genes, None)
  end.

(** Lines 299-300: the in-place min-max normalisation. *)
Definition normalize (cytotrace_score : list float64) : result (list float64) :=
  lo ← np_min cytotrace_score;
  let cytotrace_score := map (λ x, fsub x lo) cytotrace_score in
  hi ← np_max cytotrace_score;
  Ok (map (λ x, fdiv x hi) cytotrace_score).

(** Line 267: the matrix and gene names the counts and correlations
    are computed from. *)
Definition adata_mraw (a : AnnData) (use_raw : bool) : matrix * list string :=
  match raw a with
  | Some r => if use_raw then (raw_X r, raw_var_names r) else (X a, var_names a)
  | None => (X a, var_names a)
  end.

(** Line 274: [(adata_mraw.X > 0).sum(axis=1)]. *)
Definition count_expressed (M : matrix) : list nat :=
  map (λ row, length (filter (λ x, flt (Fin 0) x = true) row)) M.

Definition compute_cytotrace (layer : option string) (aggregation : string)
    (use_raw : bool) (n_pos_genes : Z) (n_neg_genes : option Z) : exec () :=
  aggregation ← lift (CytoTRACEAggregation_of aggregation);
  a ← get_adata;
  use_raw ← (if use_raw && bool_decide (raw a = None)
             then _ ← logg (Warning RawIsNone); mret false
             else mret use_raw);
  _ ← check_layer layer;
  let '(mraw_X, mraw_var_names) := adata_mraw a use_raw in
  _ ← logg (Info (ComputingScore (length mraw_var_names)));
  (* number of expressed genes per cell *)
  let num_exp_genes := count_expressed mraw_X in
  _ ← logg (Debug CorrelatingGenes);
  (* [squeeze] has turned the counts of a single cell into a 0-d array,
     which [num_exp_genes[:, None]] cannot index *)
  _ ← (if (length num_exp_genes =? 1)%nat then raise IndexError else mret ());
  let gene_corr := _correlation_test mraw_X num_exp_genes mraw_var_names in
  '(cytotrace_score, pos_top_genes, neg_top_genes) ←
     combined_score gene_corr layer aggregation n_pos_genes n_neg_genes;
  cytotrace_score ← lift (normalize cytotrace_score);
  _ ← modify_adata (set_obs (Key.cytotrace "score") (FloatCol cytotrace_score));
  _ ← modify_adata (set_obs (Key.cytotrace "pseudotime")
                      (FloatCol (map (fsub (Fin 1)) cytotrace_score)));
  _ ← modify_adata (set_obs (Key.cytotrace "num_exp_genes") (IntCol num_exp_genes));
  _ ← modify_adata (λ a, set_var (Key.cytotrace "gene_corr")
                           (FloatCol (align (var_names a) gene_corr)) a);
  _ ← modify_adata (λ a, set_var (Key.cytotrace "pos_correlates")
                           (BoolCol (replicate (length (var_names a)) false)) a);
  _ ← modify_adata (var_loc_set_true pos_top_genes (Key.cytotrace "pos_correlates"));
  _ ← modify_adata (λ a, set_var (Key.cytotrace "neg_correlates")
                           (BoolCol (replicate (length (var_names a)) false)) a);
  _ ← match neg_top_genes with
      | Some neg_top_genes =>
          modify_adata (var_loc_set_true neg_top_genes (Key.cytotrace "neg_correlates"))
      | None => mret ()
      end;
  _ ← modify_adata (set_uns (Key.cytotrace "params")
         {| p_aggregation := aggregation;
            p_layer := layer;
            p_use_raw := use_raw;
            p_n_pos_genes := length pos_top_genes;
            p_n_neg_genes := from_option length 0%nat neg_top_genes |});
  logg (Info Finish).

End Kernel.

(** * Reasoning about computations *)

Lemma exec_bind_run {A B} (m : exec A) (f : A → exec B) w :
  (m ≫= f) w =
    match m w with
    | (Ok a, w') => f a w'
    | (Raise e, w') => (Raise e, w')
    end.
Proof. reflexivity. Qed.

(** A computation that leaves the store as it found it, however it ends. *)
Definition keeps_store {A} (m : exec A) : Prop :=
  ∀ w r w', m w = (r, w') → adata w' = adata w.

Create HintDb keeps discriminated.

Lemma keeps_ret {A} (a : A) : keeps_store (mret a).
Proof. intros w r w' [= _ <-]. done. Qed.

Lemma keeps_raise {A} e : keeps_store (@raise A e).
Proof. intros w r w' [= _ <-]. done. Qed.

Lemma keeps_lift {A} (r : result A) : keeps_store (lift r).
Proof. intros w r' w' [= _ <-]. done. Qed.

Lemma keeps_get : keeps_store get_adata.
Proof. intros w r w' [= _ <-]. done. Qed.

Lemma keeps_logg l : keeps_store (logg l).
Proof. intros w r w' [= _ <-]. done. Qed.

Lemma keeps_bind {A B} (m : exec A) (f : A → exec B) :
  keeps_store m → (∀ a, keeps_store (f a)) → keeps_store (m ≫= f).
Proof.
  intros Hm Hf w r w'. rewrite exec_bind_run.
  destruct (m w) as [[a|e] w1] eqn:E.
  - intros Hr. rewrite (Hf _ _ _ _ Hr). eauto.
  - intros [= _ <-]. eauto.
Qed.

Global Hint Resolve keeps_ret keeps_raise keeps_lift keeps_get keeps_logg : keeps.

Ltac keeps_step :=
  first
    [ apply keeps_bind; [|intros ?]
    | apply keeps_ret | apply keeps_raise | apply keeps_lift
    | apply keeps_get | apply keeps_logg
    | match goal with
      | |- keeps_store (if ?b then _ else _) => destruct b
      | |- keeps_store (match ?x with _ => _ end) => destruct x
      end ].

Section KernelFacts.
Context `{Externals}.

Lemma keeps_select_top_genes gene_corr ascending n :
  keeps_store (select_top_genes gene_corr ascending n).
Proof. unfold select_top_genes. repeat keeps_step. Qed.

Lemma keeps_compute_score gene_corr layer aggregation ascending n :
  keeps_store (_compute_score gene_corr layer aggregation ascending n).
Proof.
  unfold _compute_score.
  repeat (first [apply keeps_select_top_genes | keeps_step]).
Qed.

Lemma keeps_check_layer layer : keeps_store (check_layer layer).
Proof. unfold check_layer. repeat keeps_step. Qed.

Lemma keeps_combined_score gene_corr layer aggregation n_pos n_neg :
  keeps_store (combined_score gene_corr layer aggregation n_pos n_neg).
Proof.
  unfold combined_score.
  repeat (first [apply keeps_compute_score | keeps_step]).
Qed.

End KernelFacts.

Ltac run_bind H :=
  rewrite exec_bind_run in H;
  match type of H with
  | context [match ?m ?w with _ => _ end] =>
      let E := fresh "E" in destruct (m w) as [[?|?] ?] eqn:E
  end.

Section Runs.
Context `{Externals}.

(** The correlations a run computes (lines 274-281). *)
Definition gene_corr_of (a : AnnData) (use_raw : bool) : Series :=
  let '(mraw_X, mraw_var_names) := adata_mraw a use_raw in
  _correlation_test mraw_X (count_expressed mraw_X) mraw_var_names.

(** The writes of lines 302-317, in their order (innermost first). *)
Definition set_gene_corr (gene_corr : Series) (a : AnnData) : AnnData :=
  set_var (Key.cytotrace "gene_corr") (FloatCol (align (var_names a) gene_corr)) a.

Definition clear_flags (k : string) (a : AnnData) : AnnData :=
  set_var k (BoolCol (replicate (length (var_names a)) false)) a.

Definition set_neg_flags (neg_top_genes : option (list string))
    (a : AnnData) : AnnData :=
  match neg_top_genes with
  | Some neg_top_genes =>
      var_loc_set_true neg_top_genes (Key.cytotrace "neg_correlates") a
  | None => a
  end.

Definition write_back (aggregation : CytoTRACEAggregation)
    (layer : option string) (use_raw : bool) (num_exp_genes : list nat)
    (gene_corr : Series) (cytotrace_score : list float64)
    (pos_top_genes : list string) (neg_top_genes : option (list string))
    (a : AnnData) : AnnData :=
  set_uns (Key.cytotrace "params")
    {| p_aggregation := aggregation;
       p_layer := layer;
       p_use_raw := use_raw;
       p_n_pos_genes := length pos_top_genes;
       p_n_neg_genes := from_option length 0%nat neg_top_genes |}
  (set_neg_flags neg_top_genes
  (clear_flags (Key.cytotrace "neg_correlates")
  (var_loc_set_true pos_top_genes (Key.cytotrace "pos_correlates")
  (clear_flags (Key.cytotrace "pos_correlates")
  (set_gene_corr gene_corr
  (set_obs (Key.cytotrace "num_exp_genes") (IntCol num_exp_genes)
  (set_obs (Key.cytotrace "pseudotime")
     (FloatCol (map (fsub (Fin 1)) cytotrace_score))
  (set_obs (Key.cytotrace "score") (FloatCol cytotrace_score) a)))))))).

(** The effective [use_raw] (line 258). *)
Definition effective_use_raw (a : AnnData) (use_raw : bool) : bool :=
  use_raw && negb (bool_decide (raw a = None)).

Lemma use_raw_run (a : AnnData) (use_raw : bool) w r w0 :
  (if use_raw && bool_decide (raw a = None)
   then logg (Warning RawIsNone) ≫= λ _ : (), mret false
   else mret use_raw) w = (r, w0) →
  r = Ok (effective_use_raw a use_raw) ∧ adata w0 = adata w.
Proof.
  unfold effective_use_raw.
  destruct use_raw, (bool_decide (raw a = None)); simpl;
    intros [= <- <-]; done.
Qed.

Lemma check_layer_run layer w r w0 :
  check_layer layer w = (r, w0) →
  w0 = w ∧
  match r with
  | Ok _ => layer ∈ [None; Some "X"] ∨ in_layers (adata w) layer = true
  | Raise e =>
      e = KeyError layer ∧ (layer ∉ [None; Some "X"])
      ∧ in_layers (adata w) layer = false
  end.
Proof.
  unfold check_layer. rewrite exec_bind_run. simpl.
  destruct (bool_decide _) eqn:E1; simpl.
  - destruct (in_layers _ _) eqn:E2; simpl; intros [= <- <-]; split; auto.
    apply bool_decide_eq_true in E1. done.
  - intros [= <- <-]. split; [done|]. left.
    apply bool_decide_eq_false in E1. by apply dec_stable.
Qed.

(** Every run either raises, and then the store is untouched, or goes
    through the whole computation and writes all its results. *)
Lemma compute_cytotrace_run layer aggregation use_raw n_pos_genes n_neg_genes
    w r w' :
  compute_cytotrace layer aggregation use_raw n_pos_genes n_neg_genes w = (r, w') →
  match r with
  | Raise _ => adata w' = adata w
  | Ok _ =>
      let use_raw' := effective_use_raw (adata w) use_raw in
      let gene_corr := gene_corr_of (adata w) use_raw' in
      let num_exp_genes := count_expressed (adata_mraw (adata w) use_raw').1 in
      ∃ agg combined pos neg score w1 w2,
        CytoTRACEAggregation_of aggregation = Ok agg
        ∧ (layer ∈ [None; Some "X"] ∨ in_layers (adata w) layer = true)
        ∧ length num_exp_genes ≠ 1%nat
        ∧ adata w1 = adata w
        ∧ combined_score gene_corr layer agg n_pos_genes n_neg_genes w1
          = (Ok (combined, pos, neg), w2)
        ∧ normalize combined = Ok score
        ∧ adata w' =
            write_back agg layer use_raw' num_exp_genes gene_corr score pos neg
              (adata w)
  end.
Proof.
  unfold compute_cytotrace. intros Hrun.
  run_bind Hrun; unfold lift in E; simplify_eq; [|done].
  run_bind Hrun; unfold get_adata in E; simplify_eq.
  run_bind Hrun; apply use_raw_run in E as [? Hw0]; simplify_eq.
  run_bind Hrun; apply check_layer_run in E as [-> Hlayer];
    [|by simplify_eq].
  unfold gene_corr_of.
  destruct (adata_mraw (adata w) _) as [mraw_X mraw_var_names]; simpl.
  run_bind Hrun; unfold logg in E; simplify_eq.
  run_bind Hrun; unfold logg in E; simplify_eq.
  run_bind Hrun.
  2:{ destruct (_ =? _)%nat; cbv [raise mret exec_ret] in E; by simplify_eq/=. }
  destruct (length (count_expressed mraw_X) =? 1)%nat eqn:Hcells;
    [done|]. apply Nat.eqb_neq in Hcells.
  cbv [mret exec_ret] in E. injection E as <- <-.
  run_bind Hrun.
  2:{ apply keeps_combined_score in E. simplify_eq/=. congruence. }
  match type of E with _ = (Ok ?p, _) => destruct p as [[combined pos] neg] end.
  pose proof (keeps_combined_score _ _ _ _ _ _ _ _ E) as Hk. simpl in Hk.
  run_bind Hrun; unfold lift in E0; injection E0 as E0 <-.
  2:{ simplify_eq/=. congruence. }
  cbv [mbind exec_bind modify_adata logg] in Hrun.
  destruct neg as [neg|]; cbv [modify_adata mret exec_ret] in Hrun;
    injection Hrun as <- <-; cbn [adata].
  all: rewrite Hw0 in Hlayer; rewrite Hk, Hw0.
  all: eexists a, combined, pos, _, a1, _, w1.
  all: split_and!; [done|done|done| |exact E|done|reflexivity]; done.
Qed.

(** Where a run that raises has stopped: at the enumeration, at the
    check of the layer, at the indexing of the counts of a single cell,
    inside the scoring, or at the normalisation of an empty score. *)
Lemma compute_cytotrace_raises layer aggregation use_raw n_pos_genes n_neg_genes
    w e w' :
  compute_cytotrace layer aggregation use_raw n_pos_genes n_neg_genes w
  = (Raise e, w') →
  let use_raw' := effective_use_raw (adata w) use_raw in
  let gene_corr := gene_corr_of (adata w) use_raw' in
  let num_exp_genes := count_expressed (adata_mraw (adata w) use_raw').1 in
  CytoTRACEAggregation_of aggregation = Raise e
  ∨ ∃ agg, CytoTRACEAggregation_of aggregation = Ok agg ∧
      ((e = KeyError layer ∧ (layer ∉ [None; Some "X"])
        ∧ in_layers (adata w) layer = false)
       ∨ (e = IndexError ∧ length num_exp_genes = 1%nat)
       ∨ ∃ w1 w2,
           adata w1 = adata w ∧ Debug CorrelatingGenes ∈ logs w1 ∧ w' = w2
           ∧ (combined_score gene_corr layer agg n_pos_genes n_neg_genes w1
              = (Raise e, w2)
              ∨ ∃ combined pos neg,
                  combined_score gene_corr layer agg n_pos_genes n_neg_genes w1
                  = (Ok (combined, pos, neg), w2)
                  ∧ normalize combined = Raise e)).
Proof.
  unfold compute_cytotrace. intros Hrun.
  run_bind Hrun; unfold lift in E; simplify_eq; [|by left].
  right. exists a. split; [done|].
  run_bind Hrun; unfold get_adata in E; simplify_eq.
  run_bind Hrun; apply use_raw_run in E as [? Hw0]; simplify_eq.
  run_bind Hrun; apply check_layer_run in E as [-> Hlayer].
  2:{ destruct Hlayer as (-> & ? & ?). left. simplify_eq. by rewrite <- Hw0. }
  right. unfold gene_corr_of.
  destruct (adata_mraw (adata w) _) as [mraw_X mraw_var_names]; cbn [fst].
  run_bind Hrun; unfold logg in E; simplify_eq.
  run_bind Hrun; unfold logg in E; simplify_eq.
  run_bind Hrun.
  2:{ destruct (_ =? _)%nat eqn:Hcells; cbv [raise mret exec_ret] in E;
        [|done]. apply Nat.eqb_eq in Hcells. left. by simplify_eq. }
  destruct (length (count_expressed mraw_X) =? 1)%nat; [done|].
  cbv [mret exec_ret] in E. injection E as <- <-.
  right.
  match type of Hrun with (_ ≫= _) ?W = _ => exists W, w' end.
  split_and!; [exact Hw0| |done|].
  { cbn [logs]. apply elem_of_app. right. left. }
  run_bind Hrun.
  2:{ left. by simplify_eq. }
  match type of E with _ = (Ok ?p, _) => destruct p as [[combined pos] neg] end.
  run_bind Hrun; unfold lift in E0; injection E0 as E0 <-.
  2:{ right. exists combined, pos, neg. by simplify_eq. }
  exfalso.
  cbv [mbind exec_bind modify_adata logg] in Hrun.
  destruct neg as [neg|]; cbv [modify_adata mret exec_ret] in Hrun; done.
Qed.

End Runs.

(** * An implementation of the library routines, for evaluation

    - correlation: with [r] Pearson's coefficient of a gene against the
      counts, the rational [r * |r|]; it is undefined where [r] is, has
      the sign of [r], orders genes as [r] does, and equals [r] when [r]
      is [-1], [0] or [1] (always so with two cells);
    - [sort_values]: the defined values are sorted in ascending order by
      a merge sort, reversed when descending order is asked for, and the
      undefined ones are appended;
    - [hmean]: the size of the row over the sum of the inverses;
    - [gmean]: not rational in general, hence not provided. *)
Module Sample.

Definition column_of (j : nat) (M : matrix) : list float64 :=
  map (λ row, default NaN (row !! j)) M.

Definition pearson_sq (x : list float64) (c : list nat) : float64 :=
  let c := map of_nat c in
  let n := of_nat (length x) in
  let cov := fsub (fmul n (fsum (zip_with fmul x c))) (fmul (fsum x) (fsum c)) in
  let var_x := fsub (fmul n (fsum (zip_with fmul x x))) (fmul (fsum x) (fsum x)) in
  let var_c := fsub (fmul n (fsum (zip_with fmul c c))) (fmul (fsum c) (fsum c)) in
  let r2 := fdiv (fmul cov cov) (fmul var_x var_c) in
  if flt cov (Fin 0) then fopp r2 else r2.

Definition correlation_test (M : matrix) (num_exp_genes : list nat)
    (gene_names : list string) : Series :=
  imap (λ j g, (g, pearson_sq (column_of j M) num_exp_genes)) gene_names.

(** The order of the sort: by value, an undefined value being the
    greatest. *)
Definition entry_le (e1 e2 : string * float64) : Prop :=
  isnan e2.2 || fle e1.2 e2.2 = true.

Global Instance entry_le_dec : RelDecision entry_le.
Proof. intros e1 e2. unfold entry_le. apply _. Defined.

Definition sorted_values (ascending : bool) (s : Series) : Series :=
  let good := filter (λ e, isnan e.2 = false) s in
  let bad := filter (λ e, isnan e.2 = true) s in
  let sorted := merge_sort entry_le good in
  (if ascending then sorted else reverse sorted) ++ bad.

Definition harmonic_mean (r : list float64) : result float64 :=
  Ok (fdiv (of_nat (length r)) (fsum (map (fdiv (Fin 1)) r))).

Definition geometric_mean (r : list float64) : result float64 :=
  Raise (ValueError LibraryError).

Global Instance externals : Externals := {|
  _correlation_test := correlation_test;
  sort_values := sorted_values;
  gmean_row := geometric_mean;
  hmean_row := harmonic_mean;
|}.

Definition f (z : Z) : float64 := of_Z z.

(** Two cells, two genes; gene [g0] is expressed alike in both cells,
    gene [g1] only in the second one.  The layer [Ms] is constant. *)
Definition flat : AnnData := {|
  X := [[f 1; f 0]; [f 1; f 1]];
  var_names := ["g0"; "g1"];
  raw := None;
  layers := {["Ms" := [[f 5; f 5]; [f 5; f 5]]]};
  obs := ∅; var := ∅; uns := ∅;
|}.

(** Three cells, four genes; the cells express 2, 4 and 3 genes.  The
    genes [g0], [g1], [g2] correlate positively with these counts,
    [g3] negatively. *)
Definition graded : AnnData := {|
  X := [[f 1; f 0; f 0; f 9]; [f 2; f 1; f 1; f 8]; [f 3; f 1; f 3; f 0]];
  var_names := ["g0"; "g1"; "g2"; "g3"];
  raw := None;
  layers := {["Ms" := [[f 1; f 0; f 1; f 9]; [f 2; f 2; f 2; f 8];
                       [f 4; f 1; f 5; f 6]]]};
  obs := ∅; var := ∅; uns := ∅;
|}.

Definition start (a : AnnData) : world := {| adata := a; logs := [] |}.

(** A run on [graded] with two positive genes and one negative gene,
    and a run on [flat] with one positive gene. *)
Definition graded_run : result () * world :=
  compute_cytotrace (Some "Ms") "mean" false 2 (Some 1%Z) (start graded).

Definition flat_run : result () * world :=
  compute_cytotrace (Some "Ms") "mean" false 1 None (start flat).

(** Two genes with the same correlation. *)
Definition tied : Series := [("g0", f 1); ("g1", f 1)].

(** A connectivity matrix that is not symmetric, and one with an
    isolated first node. *)
Definition skewed : matrix := [[f 1; f 2]; [f 0; f 1]].
Definition isolated : matrix := [[f 0; f 0]; [f 0; f 1]].
Definition unit_corner : matrix := [[f 1; f 0]; [f 0; f 0]].
Definition ones : matrix := [[f 1; f 1]; [f 1; f 1]].

End Sample.

(** * What a finished run has written *)

(** The flag column that is true exactly on the rows of [genes]. *)
Definition flags (names genes : list string) : list bool :=
  map (λ g, bool_decide (g ∈ genes)) names.

Lemma loc_set_true_fresh names genes :
  loc_set_true names genes (BoolCol (replicate (length names) false))
  = BoolCol (flags names genes).
Proof.
  unfold loc_set_true, flags. f_equal.
  induction names as [|g names IH]; simpl; [done|].
  by rewrite IH.
Qed.

Section Written.
Context (agg : CytoTRACEAggregation) (layer : option string) (use_raw : bool)
  (num_exp_genes : list nat) (gene_corr : Series) (score : list float64)
  (pos : list string) (neg : option (list string)) (a : AnnData).

Lemma obs_set_obs k c b : obs (set_obs k c b) = <[k := c]> (obs b).
Proof. reflexivity. Qed.
Lemma obs_set_var k c b : obs (set_var k c b) = obs b.
Proof. reflexivity. Qed.
Lemma obs_set_uns k p b : obs (set_uns k p b) = obs b.
Proof. reflexivity. Qed.
Lemma obs_var_loc_set_true g k b : obs (var_loc_set_true g k b) = obs b.
Proof. reflexivity. Qed.
Lemma obs_set_neg_flags g b : obs (set_neg_flags g b) = obs b.
Proof. by destruct g. Qed.

Lemma var_set_obs k c b : var (set_obs k c b) = var b.
Proof. reflexivity. Qed.
Lemma var_set_var k c b : var (set_var k c b) = <[k := c]> (var b).
Proof. reflexivity. Qed.
Lemma var_set_uns k p b : var (set_uns k p b) = var b.
Proof. reflexivity. Qed.
Lemma var_var_loc_set_true g k b :
  var (var_loc_set_true g k b) = alter (loc_set_true (var_names b) g) k (var b).
Proof. reflexivity. Qed.

Lemma var_names_set_obs k c b : var_names (set_obs k c b) = var_names b.
Proof. reflexivity. Qed.
Lemma var_names_set_var k c b : var_names (set_var k c b) = var_names b.
Proof. reflexivity. Qed.
Lemma var_names_set_uns k p b : var_names (set_uns k p b) = var_names b.
Proof. reflexivity. Qed.
Lemma var_names_var_loc_set_true g k b :
  var_names (var_loc_set_true g k b) = var_names b.
Proof. reflexivity. Qed.
Lemma var_names_set_neg_flags g b : var_names (set_neg_flags g b) = var_names b.
Proof. by destruct g. Qed.

Ltac store_simpl :=
  unfold write_back, clear_flags, set_gene_corr;
  repeat first
    [ rewrite obs_set_obs | rewrite obs_set_var | rewrite obs_set_uns
    | rewrite obs_var_loc_set_true | rewrite obs_set_neg_flags
    | rewrite var_set_obs | rewrite var_set_var | rewrite var_set_uns
    | rewrite var_var_loc_set_true
    | rewrite var_names_set_obs | rewrite var_names_set_var
    | rewrite var_names_set_uns | rewrite var_names_var_loc_set_true
    | rewrite var_names_set_neg_flags ].

Let a' := write_back agg layer use_raw num_exp_genes gene_corr score pos neg a.

Lemma written_var_names : var_names a' = var_names a.
Proof. subst a'. by store_simpl. Qed.

Lemma written_score : obs a' !! "ct_score" = Some (FloatCol score).
Proof.
  subst a'. store_simpl.
  rewrite !lookup_insert_ne by done. by rewrite lookup_insert_eq.
Qed.

Lemma written_pseudotime :
  obs a' !! "ct_pseudotime" = Some (FloatCol (map (fsub (Fin 1)) score)).
Proof.
  subst a'. store_simpl.
  rewrite !lookup_insert_ne by done. by rewrite lookup_insert_eq.
Qed.

Lemma written_num_exp_genes :
  obs a' !! "ct_num_exp_genes" = Some (IntCol num_exp_genes).
Proof. subst a'. store_simpl. by rewrite lookup_insert_eq. Qed.

Lemma flags_nil names : flags names [] = replicate (length names) false.
Proof.
  unfold flags. induction names as [|g names IH]; [done|].
  cbn [map length replicate]. by rewrite IH.
Qed.

Lemma written_pos_correlates :
  var a' !! "ct_pos_correlates" = Some (BoolCol (flags (var_names a) pos)).
Proof.
  subst a'. unfold write_back. rewrite var_set_uns.
  assert (∀ b, var (set_neg_flags neg b) !! "ct_pos_correlates"
               = var b !! "ct_pos_correlates") as ->.
  { intros b. destruct neg; [|done]. unfold set_neg_flags.
    rewrite var_var_loc_set_true. by rewrite lookup_alter_ne. }
  store_simpl.
  change (Key.cytotrace "neg_correlates") with "ct_neg_correlates".
  change (Key.cytotrace "pos_correlates") with "ct_pos_correlates".
  rewrite lookup_insert_ne by done.
  rewrite lookup_alter_eq, lookup_insert_eq. cbn [fmap option_fmap option_map].
  by rewrite loc_set_true_fresh.
Qed.

Lemma written_neg_correlates :
  var a' !! "ct_neg_correlates"
  = Some (BoolCol (flags (var_names a) (default [] neg))).
Proof.
  subst a'. unfold write_back. rewrite var_set_uns.
  destruct neg as [g|]; unfold set_neg_flags.
  - store_simpl. change (Key.cytotrace "neg_correlates") with "ct_neg_correlates".
    rewrite lookup_alter_eq, lookup_insert_eq. cbn [fmap option_fmap option_map].
    by rewrite loc_set_true_fresh.
  - store_simpl. change (Key.cytotrace "neg_correlates") with "ct_neg_correlates".
    rewrite lookup_insert_eq. cbn [default]. by rewrite flags_nil.
Qed.

End Written.

(** * The score before normalisation *)

Lemma traverse_length {A B} (f : A → result B) l l' :
  traverse f l = Ok l' → length l' = length l.
Proof.
  revert l'. induction l as [|x l IH]; intros l'; simpl.
  - by intros [= <-].
  - destruct (f x) as [y|]; simpl; [|done].
    destruct (traverse f l) as [ys|]; simpl; [|done].
    intros [= <-]. simpl. f_equal. by apply IH.
Qed.

(** The expression matrix [_compute_score] aggregates (lines 169-172). *)
Definition expression_of (a : AnnData) (layer : option string) : option matrix :=
  if decide (layer = Some "X") then Some (X a)
  else layer ≫= λ l, layers a !! l.

Section Combined.
Context `{Externals}.

Lemma aggregate_length agg M s : aggregate agg M = Ok s → length s = length M.
Proof.
  destruct agg; simpl.
  - intros [= <-]. by rewrite length_map.
  - intros [= <-]. by rewrite length_map.
  - apply traverse_length.
  - apply traverse_length.
Qed.

(** One score per cell of the chosen expression matrix. *)
Lemma compute_score_length gene_corr layer agg ascending n w s genes w' :
  _compute_score gene_corr layer agg ascending n w = (Ok (s, genes), w') →
  ∃ M, expression_of (adata w) layer = Some M ∧ length s = length M.
Proof.
  unfold _compute_score. intros Hrun.
  run_bind Hrun; [|done].
  apply keeps_select_top_genes in E as Hk.
  run_bind Hrun; cbv [get_adata] in E0; simplify_eq.
  run_bind Hrun; cbv [lift] in E0; simplify_eq.
  unfold expression_of. rewrite <- Hk.
  run_bind Hrun; [|done].
  run_bind Hrun; cbv [lift] in E1; simplify_eq.
  run_bind Hrun; cbv [lift] in E1; simplify_eq.
  cbv [mret exec_ret] in Hrun. simplify_eq.
  exists a1. split.
  - destruct (decide (layer = Some "X")).
    + cbv [mret exec_ret] in E0. by simplify_eq.
    + destruct (layer ≫= _); cbv [mret exec_ret raise] in E0; by simplify_eq.
  - match goal with
    | Hagg : aggregate _ _ = Ok _, Hcols : take_columns _ _ = Ok _ |- _ =>
        apply aggregate_length in Hagg; apply traverse_length in Hcols;
        congruence
    end.
Qed.

Lemma combined_score_run gene_corr layer agg n_pos n_neg w combined pos neg w' :
  combined_score gene_corr layer agg n_pos n_neg w = (Ok (combined, pos, neg), w') →
  ∃ pos_score w1,
    _compute_score gene_corr layer agg false n_pos w = (Ok (pos_score, pos), w1)
    ∧ match n_neg with
      | None => combined = pos_score ∧ neg = None ∧ w' = w1
      | Some n =>
          ∃ inv_score neg_genes m,
            _compute_score gene_corr layer agg true n w1
            = (Ok (inv_score, neg_genes), w')
            ∧ neg = Some neg_genes
            ∧ np_max inv_score = Ok m
            ∧ combined = zip_with fadd pos_score (map (fsub m) inv_score)
      end.
Proof.
  unfold combined_score. intros Hrun.
  run_bind Hrun; [|done]. destruct a as [pos_score pos'].
  destruct n_neg as [n|].
  - run_bind Hrun; [|done]. destruct a as [inv_score neg_genes].
    run_bind Hrun; cbv [lift] in E1; simplify_eq.
    cbv [mret exec_ret] in Hrun. simplify_eq.
    eexists _, _. split; [done|]. eexists _, _, _. done.
  - cbv [mret exec_ret] in Hrun. simplify_eq.
    eexists _, _. done.
Qed.

End Combined.

(** * Min-max normalisation *)

Lemma Qc_leb_le a b : Qc_leb a b = true ↔ a ≤ b.
Proof. unfold Qc_leb. apply bool_decide_eq_true. Qed.

Lemma Qc_eqb_eq a b : Qc_eqb a b = true ↔ a = b.
Proof. unfold Qc_eqb. apply bool_decide_eq_true. Qed.

Lemma Qc_eqb_neq a b : Qc_eqb a b = false ↔ a ≠ b.
Proof. unfold Qc_eqb. apply bool_decide_eq_false. Qed.

Lemma finite_values v :
  Forall (λ x, isfinite x = true) v → ∃ qs, v = Fin <$> qs.
Proof.
  induction 1 as [|x v Hx _ [qs ->]].
  - by exists [].
  - destruct x as [q| | |]; try done. by exists (q :: qs).
Qed.

Lemma elem_of_cons_mono {A} (m x q : A) qs : m ∈ x :: qs → m ∈ x :: q :: qs.
Proof. intros [->|?]%elem_of_cons; [left|do 2 right]; done. Qed.

Lemma foldl_fminimum_fin x qs :
  ∃ m, foldl fminimum (Fin x) (Fin <$> qs) = Fin m
       ∧ m ∈ x :: qs ∧ Forall (λ q, m ≤ q) (x :: qs).
Proof.
  revert x. induction qs as [|q qs IH]; intros x.
  - exists x. split_and!; [done|set_solver|]. by repeat constructor.
  - rewrite fmap_cons. cbn [foldl]. unfold fminimum at 2. cbn [isnan fle].
    destruct (Qc_leb x q) eqn:E.
    + apply Qc_leb_le in E.
      destruct (IH x) as (m & -> & Hin & Hall). exists m.
      inversion_clear Hall as [|? ? Hmx Hrest].
      split_and!; [done|by apply elem_of_cons_mono|].
      repeat constructor; [done| |done]. by trans x.
    + assert (q ≤ x) as Hqx.
      { apply Qclt_le_weak, Qclt_nge. intros ?%Qc_leb_le. congruence. }
      destruct (IH q) as (m & -> & Hin & Hall). exists m.
      inversion_clear Hall as [|? ? Hmq Hrest].
      split_and!; [done|by right|].
      repeat constructor; [|done|done]. by trans q.
Qed.

Lemma foldl_fmaximum_fin x qs :
  ∃ m, foldl fmaximum (Fin x) (Fin <$> qs) = Fin m
       ∧ m ∈ x :: qs ∧ Forall (λ q, q ≤ m) (x :: qs).
Proof.
  revert x. induction qs as [|q qs IH]; intros x.
  - exists x. split_and!; [done|set_solver|]. by repeat constructor.
  - rewrite fmap_cons. cbn [foldl]. unfold fmaximum at 2. cbn [isnan fle].
    destruct (Qc_leb x q) eqn:E.
    + apply Qc_leb_le in E.
      destruct (IH q) as (m & -> & Hin & Hall). exists m.
      inversion_clear Hall as [|? ? Hmq Hrest].
      split_and!; [done|by right|].
      repeat constructor; [|done|done]. by trans q.
    + assert (q ≤ x) as Hqx.
      { apply Qclt_le_weak, Qclt_nge. intros ?%Qc_leb_le. congruence. }
      destruct (IH x) as (m & -> & Hin & Hall). exists m.
      inversion_clear Hall as [|? ? Hmx Hrest].
      split_and!; [done|by apply elem_of_cons_mono|].
      repeat constructor; [done| |done]. by trans x.
Qed.

(** The minimum of finite values is the least of them. *)
Lemma np_min_fin qs m :
  m ∈ qs → Forall (λ q, m ≤ q) qs → np_min (Fin <$> qs) = Ok (Fin m).
Proof.
  intros Hin Hall. destruct qs as [|x qs]; [by apply elem_of_nil in Hin|].
  rewrite fmap_cons. cbn [np_min].
  destruct (foldl_fminimum_fin x qs) as (m' & -> & Hin' & Hall').
  do 2 f_equal. apply Qcle_antisym.
  - by apply (proj1 (Forall_forall _ _) Hall').
  - by apply (proj1 (Forall_forall _ _) Hall).
Qed.

Lemma np_max_fin qs m :
  m ∈ qs → Forall (λ q, q ≤ m) qs → np_max (Fin <$> qs) = Ok (Fin m).
Proof.
  intros Hin Hall. destruct qs as [|x qs]; [by apply elem_of_nil in Hin|].
  rewrite fmap_cons. cbn [np_max].
  destruct (foldl_fmaximum_fin x qs) as (m' & -> & Hin' & Hall').
  do 2 f_equal. apply Qcle_antisym.
  - by apply (proj1 (Forall_forall _ _) Hall).
  - by apply (proj1 (Forall_forall _ _) Hall').
Qed.

Lemma finite_extrema qs :
  qs ≠ [] →
  ∃ lo hi, lo ∈ qs ∧ hi ∈ qs ∧ Forall (λ q, lo ≤ q ∧ q ≤ hi) qs.
Proof.
  destruct qs as [|x qs]; [done|]. intros _.
  destruct (foldl_fminimum_fin x qs) as (lo & _ & Hlo & Hlo').
  destruct (foldl_fmaximum_fin x qs) as (hi & _ & Hhi & Hhi').
  exists lo, hi. split_and!; [done|done|].
  apply Forall_forall. intros q Hq. split.
  - by apply (proj1 (Forall_forall _ _) Hlo').
  - by apply (proj1 (Forall_forall _ _) Hhi').
Qed.

Lemma normalize_fin qs lo hi :
  lo ∈ qs → hi ∈ qs → Forall (λ q, lo ≤ q ∧ q ≤ hi) qs →
  normalize (Fin <$> qs)
  = Ok ((λ q, fdiv (Fin (q - lo)) (Fin (hi - lo))) <$> qs).
Proof.
  intros Hlo Hhi Hall. unfold normalize.
  rewrite (np_min_fin qs lo); [|done|by eapply Forall_impl; [done|intros ? []]].
  cbn [mbind result_bind].
  replace (map (λ x, fsub x (Fin lo)) (Fin <$> qs))
    with (Fin <$> ((λ q, q - lo) <$> qs)).
  2:{ rewrite <- list_fmap_compose. rewrite map_map. done. }
  rewrite (np_max_fin _ (hi - lo)).
  - cbn [mbind result_bind]. f_equal.
    rewrite <- list_fmap_compose. rewrite map_map. done.
  - apply list_elem_of_fmap. by exists hi.
  - apply Forall_fmap. eapply Forall_impl; [done|].
    intros q [_ Hq]. simpl. by apply Qcplus_le_mono_r.
Qed.

Lemma Qc_ratio_bounds a b : 0 ≤ a → a ≤ b → 0 < b → 0 ≤ a / b ∧ a / b ≤ 1.
Proof.
  intros Ha Hab Hb.
  assert (a / b * b = a) as Hmul.
  { unfold Qcdiv. rewrite <- Qcmult_assoc, Qcmult_inv_l, Qcmult_1_r; [done|].
    by apply not_eq_sym, Qclt_not_eq. }
  split.
  - apply (Qcmult_lt_0_le_reg_r _ _ b); [done|]. by rewrite Qcmult_0_l, Hmul.
  - apply (Qcmult_lt_0_le_reg_r _ _ b); [done|]. by rewrite Qcmult_1_l, Hmul.
Qed.

(** Finite scores that are not all equal are mapped onto [0, 1], both
    ends being reached. *)
Lemma normalize_range v :
  Forall (λ x, isfinite x = true) v →
  (∃ x y, x ∈ v ∧ y ∈ v ∧ x ≠ y) →
  ∃ s, normalize v = Ok s
       ∧ np_min s = Ok (Fin 0) ∧ np_max s = Ok (Fin 1).
Proof.
  intros [qs ->]%finite_values (x & y & Hx & Hy & Hxy).
  destruct (finite_extrema qs) as (lo & hi & Hlo & Hhi & Hall).
  { intros ->. by apply elem_of_nil in Hx. }
  assert (lo < hi) as Hlt.
  { destruct (Qcle_lt_or_eq lo hi) as [|<-]; [|done|].
    - by apply (proj1 (Forall_forall _ _) Hall lo).
    - exfalso. apply Hxy.
      apply list_elem_of_fmap in Hx as (qx & -> & Hqx).
      apply list_elem_of_fmap in Hy as (qy & -> & Hqy).
      destruct (proj1 (Forall_forall _ _) Hall qx Hqx).
      destruct (proj1 (Forall_forall _ _) Hall qy Hqy).
      f_equal. trans lo; [|symmetry]; by apply Qcle_antisym. }
  assert (0 < hi - lo) as Hpos by by apply Qclt_minus_iff in Hlt.
  assert (hi - lo ≠ 0) as Hne by by apply not_eq_sym, Qclt_not_eq.
  rewrite (normalize_fin qs lo hi) by done. eexists. split; [done|].
  replace ((λ q, fdiv (Fin (q - lo)) (Fin (hi - lo))) <$> qs)
    with (Fin <$> ((λ q, (q - lo) / (hi - lo)) <$> qs)).
  2:{ rewrite <- list_fmap_compose. apply list_fmap_ext. intros _ q _. simpl.
      apply Qc_eqb_neq in Hne. by rewrite Hne. }
  assert (∀ q, q ∈ qs → 0 ≤ (q - lo) / (hi - lo) ∧ (q - lo) / (hi - lo) ≤ 1)
    as Hbounds.
  { intros q Hq. destruct (proj1 (Forall_forall _ _) Hall q Hq).
    apply Qc_ratio_bounds; [|by apply Qcplus_le_mono_r|done].
    by apply Qcle_minus_iff in H. }
  split.
  - apply np_min_fin.
    + apply list_elem_of_fmap. exists lo. split; [|done].
      unfold Qcminus, Qcdiv. by rewrite Qcplus_opp_r, Qcmult_0_l.
    + apply Forall_fmap, Forall_forall. intros q Hq. by apply Hbounds.
  - apply np_max_fin.
    + apply list_elem_of_fmap. exists hi. split; [|done].
      unfold Qcdiv. by rewrite Qcmult_inv_r.
    + apply Forall_fmap, Forall_forall. intros q Hq. by apply Hbounds.
Qed.

(** Finite scores that are all equal are all mapped to [nan]: the
    range is zero and every cell is [0 / 0]. *)
Lemma normalize_constant v c :
  v ≠ [] → Forall (λ x, x = Fin c) v →
  normalize v = Ok (replicate (length v) NaN).
Proof.
  intros Hv Hall.
  assert (v = Fin <$> replicate (length v) c) as Hrep.
  { clear Hv. induction Hall as [|x v -> _ IH]; [done|].
    cbn [length replicate]. rewrite fmap_cons. by rewrite <- IH. }
  rewrite Hrep at 1.
  assert (c ∈ replicate (length v) c) as Hin.
  { destruct v; [done|]. simpl. set_solver. }
  rewrite (normalize_fin _ c c); [|done|done|].
  2:{ apply Forall_forall. intros q [-> _]%elem_of_replicate. done. }
  f_equal. clear. induction (length v) as [|n IH]; [done|].
  cbn [replicate]. rewrite fmap_cons, IH. f_equal.
  unfold Qcminus. rewrite Qcplus_opp_r. reflexivity.
Qed.

(** * Runs of [compute_cytotrace] *)

Lemma inverted_sum_Forall3 (m : float64) (ps invs : list float64) :
  length ps = length invs →
  Forall3 (λ p i c, c = fadd p (fsub m i)) ps invs
    (zip_with fadd ps (map (fsub m) invs)).
Proof.
  revert invs. induction ps as [|p ps IH]; intros [|i invs]; simpl; try done.
  - constructor.
  - intros [= Hlen]. constructor; [done|]. by apply IH.
Qed.

Section Claims.
Context `{Externals}.

(** [genes] and [score] are what [_compute_score] returns on the store [a]. *)
Definition scored (a : AnnData) (gene_corr : Series) (layer : option string)
    (agg : CytoTRACEAggregation) (ascending : bool) (n_top_genes : Z)
    (score : list float64) (genes : list string) : Prop :=
  ∃ w w', adata w = a
    ∧ _compute_score gene_corr layer agg ascending n_top_genes w
      = (Ok (score, genes), w').

(** [combined] is the score of a run on the store [a] before it is
    normalised (the value of [cytotrace_score] after line 298). *)
Definition combined_in (a : AnnData) (gene_corr : Series) (layer : option string)
    (agg : CytoTRACEAggregation) (n_pos_genes : Z) (n_neg_genes : option Z)
    (combined : list float64) (pos : list string) (neg : option (list string))
    : Prop :=
  ∃ w w', adata w = a
    ∧ combined_score gene_corr layer agg n_pos_genes n_neg_genes w
      = (Ok (combined, pos, neg), w').

(** What a run that returned has computed and written. *)
Lemma compute_cytotrace_ok layer aggregation use_raw n_pos_genes n_neg_genes w w' :
  compute_cytotrace layer aggregation use_raw n_pos_genes n_neg_genes w
  = (Ok (), w') →
  let a := adata w in
  let use_raw' := effective_use_raw a use_raw in
  let gene_corr := gene_corr_of a use_raw' in
  ∃ agg combined pos neg score,
    CytoTRACEAggregation_of aggregation = Ok agg
    ∧ combined_in a gene_corr layer agg n_pos_genes n_neg_genes combined pos neg
    ∧ normalize combined = Ok score
    ∧ adata w' =
        write_back agg layer use_raw' (count_expressed (adata_mraw a use_raw').1)
          gene_corr score pos neg a.
Proof.
  intros Hrun. apply compute_cytotrace_run in Hrun. cbv zeta in Hrun.
  destruct Hrun as (agg & combined & pos & neg & score & w1 & w2 &
    Hagg & _ & _ & Hw1 & Hcomb & Hnorm & Hstore).
  exists agg, combined, pos, neg, score. split_and!; [done| |done|done].
  by exists w1, w2.
Qed.

(** How the score before normalisation is made (lines 283-298). *)
Lemma combined_in_parts a gene_corr layer agg n_pos n_neg combined pos neg :
  combined_in a gene_corr layer agg n_pos n_neg combined pos neg →
  ∃ pos_score,
    scored a gene_corr layer agg false n_pos pos_score pos
    ∧ match n_neg with
      | None => combined = pos_score ∧ neg = None
      | Some n =>
          ∃ inv_score neg_genes m,
            scored a gene_corr layer agg true n inv_score neg_genes
            ∧ neg = Some neg_genes
            ∧ np_max inv_score = Ok m
            ∧ Forall3 (λ p i c, c = fadd p (fsub m i))
                pos_score inv_score combined
      end.
Proof.
  intros (w & w' & Hw & Hrun).
  apply combined_score_run in Hrun as (pos_score & w1 & Hpos & Hrest).
  exists pos_score. split; [by exists w, w1|].
  destruct n_neg as [n|].
  - destruct Hrest as (inv_score & neg_genes & m & Hneg & -> & Hm & ->).
    exists inv_score, neg_genes, m.
    assert (adata w1 = a) as Hw1.
    { rewrite <- Hw. by eapply keeps_compute_score. }
    split_and!; [by exists w1, w'|done|done|].
    apply compute_score_length in Hpos as (M & HM & Hlen).
    apply compute_score_length in Hneg as (M' & HM' & Hlen').
    rewrite Hw in HM. rewrite Hw1 in HM'.
    assert (M' = M) as -> by congruence.
    apply inverted_sum_Forall3. congruence.
  - by destruct Hrest as (-> & -> & _).
Qed.

(** C6.  Whenever [compute_cytotrace] raises, whatever the error (an
    unknown aggregation mode or layer, a gene count that is not
    positive, an undefined correlation among the chosen genes, an empty
    choice, ...), it raises before the first write: the store, with its
    [obs], [var] and [uns] tables, is exactly as it was. *)
Theorem errors_precede_store_writes layer aggregation use_raw n_pos_genes
    n_neg_genes w e w' :
  compute_cytotrace layer aggregation use_raw n_pos_genes n_neg_genes w
  = (Raise e, w') →
  adata w' = adata w.
Proof. intros Hrun. by apply compute_cytotrace_run in Hrun. Qed.

(** C8.  After a run, the persisted pseudotime of every cell is [1] minus
    the persisted score of that cell. *)
Theorem pseudotime_is_one_minus_score layer aggregation use_raw n_pos_genes
    n_neg_genes w w' :
  compute_cytotrace layer aggregation use_raw n_pos_genes n_neg_genes w
  = (Ok (), w') →
  ∃ score pseudotime,
    obs (adata w') !! "ct_score" = Some (FloatCol score)
    ∧ obs (adata w') !! "ct_pseudotime" = Some (FloatCol pseudotime)
    ∧ Forall2 (λ s p, p = fsub (Fin 1) s) score pseudotime.
Proof.
  intros Hrun. apply compute_cytotrace_ok in Hrun. cbv zeta in Hrun.
  destruct Hrun as (agg & combined & pos & neg & score & _ & _ & _ & ->).
  exists score, (map (fsub (Fin 1)) score).
  rewrite written_score, written_pseudotime. split_and!; [done|done|].
  apply Forall2_fmap_r, Forall_Forall2_diag, Forall_forall. done.
Qed.

(** C7.  The score that is normalised and persisted is, when
    [n_neg_genes] is given, cell by cell the aggregate of the positive
    genes plus (the maximum over the cells of the aggregate of the
    negative genes, minus the aggregate of the negative genes of that
    cell); without [n_neg_genes] it is the aggregate of the positive
    genes alone. *)
Theorem combined_score_formula layer aggregation use_raw n_pos_genes
    n_neg_genes w w' :
  compute_cytotrace layer aggregation use_raw n_pos_genes n_neg_genes w
  = (Ok (), w') →
  let a := adata w in
  let gene_corr := gene_corr_of a (effective_use_raw a use_raw) in
  ∃ agg combined pos pos_score score,
    CytoTRACEAggregation_of aggregation = Ok agg
    ∧ scored a gene_corr layer agg false n_pos_genes pos_score pos
    ∧ match n_neg_genes with
      | None => combined = pos_score
      | Some n =>
          ∃ inv_score neg m,
            scored a gene_corr layer agg true n inv_score neg
            ∧ np_max inv_score = Ok m
            ∧ Forall3 (λ p i c, c = fadd p (fsub m i))
                pos_score inv_score combined
      end
    ∧ normalize combined = Ok score
    ∧ obs (adata w') !! "ct_score" = Some (FloatCol score).
Proof.
  intros Hrun. apply compute_cytotrace_ok in Hrun. cbv zeta in *.
  destruct Hrun as (agg & combined & pos & neg & score & Hagg & Hcomb & Hnorm & ->).
  apply combined_in_parts in Hcomb as (pos_score & Hpos & Hrest).
  exists agg, combined, pos, pos_score, score.
  rewrite written_score. split_and!; [done|done| |done|done].
  destruct n_neg_genes as [n|].
  - destruct Hrest as (inv_score & neg_genes & m & ? & _ & ? & ?).
    by exists inv_score, neg_genes, m.
  - by destruct Hrest.
Qed.

(** C10.  A run that returns rewrites both flag columns entirely: the
    positive flag of a gene is True exactly when the gene is among the
    positive genes chosen by this run; the negative flag is True exactly
    when the gene is among the negative genes chosen by this run, and is
    False for every gene when [n_neg_genes] is [None].  The columns do
    not depend on what [var] held before. *)
Theorem correlate_flags_are_reset layer aggregation use_raw n_pos_genes
    n_neg_genes w w' :
  compute_cytotrace layer aggregation use_raw n_pos_genes n_neg_genes w
  = (Ok (), w') →
  let a := adata w in
  let gene_corr := gene_corr_of a (effective_use_raw a use_raw) in
  ∃ agg pos pos_score,
    CytoTRACEAggregation_of aggregation = Ok agg
    ∧ scored a gene_corr layer agg false n_pos_genes pos_score pos
    ∧ var (adata w') !! "ct_pos_correlates"
      = Some (BoolCol (map (λ g, bool_decide (g ∈ pos)) (var_names a)))
    ∧ match n_neg_genes with
      | None =>
          var (adata w') !! "ct_neg_correlates"
          = Some (BoolCol (replicate (length (var_names a)) false))
      | Some n =>
          ∃ neg inv_score,
            scored a gene_corr layer agg true n inv_score neg
            ∧ var (adata w') !! "ct_neg_correlates"
              = Some (BoolCol (map (λ g, bool_decide (g ∈ neg)) (var_names a)))
      end.
Proof.
  intros Hrun. apply compute_cytotrace_ok in Hrun. cbv zeta in *.
  destruct Hrun as (agg & combined & pos & neg & score & Hagg & Hcomb & Hnorm & ->).
  apply combined_in_parts in Hcomb as (pos_score & Hpos & Hrest).
  exists agg, pos, pos_score.
  rewrite written_pos_correlates, written_neg_correlates.
  split_and!; [done|done|done|].
  destruct n_neg_genes as [n|].
  - destruct Hrest as (inv_score & neg_genes & m & ? & -> & _ & _).
    by exists neg_genes, inv_score.
  - destruct Hrest as [_ ->]. cbn [default]. by rewrite flags_nil.
Qed.


End Claims.

(** * The choice of the top genes *)

Section Selection.
Context `{Externals}.

(** The genes of the sorted series that the store knows, before the cut. *)
Definition candidates (a : AnnData) (gene_corr : Series) (ascending : bool)
    : list string :=
  filter (λ g, g ∈ var_names a) (sort_values ascending gene_corr).*1.

(** The top slice: the first [n_top_genes] candidates. *)
Definition top_slice (a : AnnData) (gene_corr : Series) (ascending : bool)
    (n_top_genes : Z) : list string :=
  take (Z.to_nat n_top_genes) (candidates a gene_corr ascending).

(** Some gene of [genes] has an undefined correlation in [gene_corr]. *)
Definition has_nan (gene_corr : Series) (genes : list string) : Prop :=
  ∃ g v, g ∈ genes ∧ (g, v) ∈ gene_corr ∧ isnan v = true.

Lemma elem_of_loc (s : Series) labels e :
  e ∈ loc s labels ↔ e.1 ∈ labels ∧ e ∈ s.
Proof.
  unfold loc. rewrite list_elem_of_bind. split.
  - intros (g & [Heq He]%list_elem_of_filter & Hg). by subst.
  - intros [Hg He]. exists e.1. split; [|done]. by apply list_elem_of_filter.
Qed.

Lemma invalid_genes_zero (s : Series) genes :
  length (filter (λ e, isnan e.2 = true) (loc s genes)) = 0%nat
  ↔ ¬ has_nan s genes.
Proof.
  rewrite length_zero_iff_nil. split.
  - intros Hnil (g & v & Hg & Hv & Hnan).
    assert ((g, v) ∈ filter (λ e, isnan e.2 = true) (loc s genes)) as Hin.
    { apply list_elem_of_filter. split; [done|]. by apply elem_of_loc. }
    rewrite Hnil in Hin. by apply elem_of_nil in Hin.
  - intros Hno. apply elem_of_nil_inv. intros [g v].
    intros [Hnan [Hg Hv]%elem_of_loc]%list_elem_of_filter.
    apply Hno. by exists g, v.
Qed.

Lemma invalid_genes_nonzero (s : Series) genes :
  length (filter (λ e, isnan e.2 = true) (loc s genes)) ≠ 0%nat
  → has_nan s genes.
Proof.
  destruct (filter _ _) as [|[g v] l] eqn:E; [done|]. intros _.
  assert ((g, v) ∈ filter (λ e, isnan e.2 = true) (loc s genes)) as Hin.
  { rewrite E. left. }
  apply list_elem_of_filter in Hin as [Hnan [Hg Hv]%elem_of_loc].
  by exists g, v.
Qed.

(** The outcome of the selection, case by case. *)
Lemma select_top_genes_run gene_corr ascending n w :
  let top := top_slice (adata w) gene_corr ascending n in
  select_top_genes gene_corr ascending n w =
    if bool_decide (n ≤ 0)%Z
    then (Raise (ValueError (NonPositiveTopGenes ascending n)), w)
    else if negb (length (filter (λ e, isnan e.2 = true) (loc gene_corr top)) =? 0)%nat
    then (Raise (ValueError (NaNInTopGenes ascending (length top)
            (length (filter (λ e, isnan e.2 = true) (loc gene_corr top))))), w)
    else if (length top =? 0)%nat
    then (Raise (ValueError NoGenesSelected), w)
    else (Ok top,
          {| adata := adata w;
             logs := logs w ++
               (if bool_decide (Z.of_nat (length top) ≠ n)
                then [Warning (ReducedTopGenes ascending n (length top))]
                else []) |}).
Proof.
  intros top. unfold select_top_genes.
  destruct (bool_decide (n ≤ 0)%Z); [done|].
  rewrite exec_bind_run. cbn [get_adata].
  fold (candidates (adata w) gene_corr ascending).
  fold (top_slice (adata w) gene_corr ascending n). fold top.
  destruct (negb _); [done|].
  destruct (length top =? 0)%nat; [done|].
  rewrite exec_bind_run.
  destruct (bool_decide (Z.of_nat (length top) ≠ n)); cbn; [done|].
  rewrite app_nil_r. by destruct w.
Qed.

(** The outcomes of the selection and what each one leaves behind. *)
Lemma select_top_genes_cases gene_corr ascending n w :
  let top := top_slice (adata w) gene_corr ascending n in
  let cand := candidates (adata w) gene_corr ascending in
  let out := select_top_genes gene_corr ascending n w in
  ((∃ e, out.1 = Raise e) ↔ (n ≤ 0)%Z ∨ has_nan gene_corr top ∨ top = [])
  ∧ (∀ e, out.1 = Raise e → (∃ why, e = ValueError why) ∧ out.2 = w)
  ∧ (∀ genes, out.1 = Ok genes →
       genes = top ∧ adata out.2 = adata w
       ∧ logs out.2 = logs w ++
           if bool_decide (Z.of_nat (length top) ≠ n)
           then [Warning (ReducedTopGenes ascending n (length top))]
           else [])
  ∧ ((0 < length cand)%nat → (Z.of_nat (length cand) < n)%Z →
     ¬ has_nan gene_corr cand →
     out.1 = Ok cand ∧ adata out.2 = adata w
     ∧ logs out.2 = logs w ++ [Warning (ReducedTopGenes ascending n (length cand))]).
Proof.
  intros top cand out.
  assert (out = select_top_genes gene_corr ascending n w) as Hout by done.
  rewrite select_top_genes_run in Hout. fold top in Hout. clearbody out.
  destruct (bool_decide (n ≤ 0)%Z) eqn:Hn.
  { apply bool_decide_eq_true in Hn. subst out. cbn [fst snd].
    split_and!; [|intros e [= <-]; eauto|done|lia].
    split; [auto|eauto]. }
  apply bool_decide_eq_false in Hn.
  destruct (length (filter _ (loc gene_corr top)) =? 0)%nat eqn:Hnan; cbn [negb] in Hout.
  2:{ apply Nat.eqb_neq, invalid_genes_nonzero in Hnan.
      subst out. cbn [fst snd].
      split_and!; [|intros e [= <-]; eauto|done|].
      - split; [auto|eauto].
      - intros Hpos Hlt Hno. exfalso. apply Hno.
        unfold top, top_slice in Hnan. fold cand in Hnan.
        rewrite take_ge in Hnan by lia. done. }
  apply Nat.eqb_eq, invalid_genes_zero in Hnan.
  destruct (length top =? 0)%nat eqn:Hlen.
  { apply Nat.eqb_eq, length_zero_iff_nil in Hlen. subst out. cbn [fst snd].
    split_and!; [|intros e [= <-]; eauto|done|].
    - split; [auto|eauto].
    - intros Hpos Hlt _. exfalso.
      unfold top, top_slice in Hlen. fold cand in Hlen.
      rewrite take_ge in Hlen by lia. rewrite Hlen in Hpos. simpl in Hpos. lia. }
  apply Nat.eqb_neq in Hlen. subst out. cbn [fst snd adata logs].
  split_and!.
  - split; [by intros [e ?]|].
    intros [?|[?|Hnil]]; [lia|done|]. by rewrite Hnil in Hlen.
  - done.
  - by intros genes [= <-].
  - intros Hpos Hlt Hno.
    assert (top = cand) as Htop.
    { unfold top, top_slice. fold cand. apply take_ge. lia. }
    rewrite Htop. split_and!; [done|done|].
    rewrite bool_decide_eq_true_2; [done|lia].
Qed.

(** C5.  The selection raises exactly when the requested count is not
    positive, or the top slice holds a gene whose correlation is
    undefined, or the slice is empty; what it raises is a [ValueError].
    Otherwise it returns the slice.  When the store knows fewer genes of
    the series than requested, but at least one, and none of them has an
    undefined correlation, it goes on with this reduced set, and all it
    does besides is log a warning. *)
Theorem selection_fails_exactly_when gene_corr ascending n w :
  let top := top_slice (adata w) gene_corr ascending n in
  let cand := candidates (adata w) gene_corr ascending in
  let out := select_top_genes gene_corr ascending n w in
  ((∃ e, out.1 = Raise e) ↔ (n ≤ 0)%Z ∨ has_nan gene_corr top ∨ top = [])
  ∧ (∀ e, out.1 = Raise e → (∃ why, e = ValueError why) ∧ out.2 = w)
  ∧ (∀ genes, out.1 = Ok genes →
       genes = top ∧ adata out.2 = adata w
       ∧ logs out.2 = logs w ++
           if bool_decide (Z.of_nat (length top) ≠ n)
           then [Warning (ReducedTopGenes ascending n (length top))]
           else [])
  ∧ ((0 < length cand)%nat → (Z.of_nat (length cand) < n)%Z →
     ¬ has_nan gene_corr cand →
     out.1 = Ok cand ∧ adata out.2 = adata w
     ∧ logs out.2 = logs w ++ [Warning (ReducedTopGenes ascending n (length cand))]).
Proof. apply select_top_genes_cases. Qed.

(** * The layer [None] *)

Lemma var_index_ok names g : g ∈ names → ∃ i, var_index names g = Ok i.
Proof.
  intros Hg. unfold var_index.
  destruct (list_find_elem_of (λ n, n = g) names g Hg eq_refl) as [[i x] ->].
  by exists i.
Qed.

Lemma traverse_ok {A B} (f : A → result B) l :
  Forall (λ x, ∃ y, f x = Ok y) l → ∃ l', traverse f l = Ok l'.
Proof.
  induction 1 as [|x l [y Hy] _ [l' Hl']]; simpl.
  - by exists [].
  - rewrite Hy. cbn. rewrite Hl'. cbn. by exists (y :: l').
Qed.

Lemma top_slice_known a gene_corr ascending n :
  Forall (λ g, g ∈ var_names a) (top_slice a gene_corr ascending n).
Proof.
  apply Forall_forall. intros g Hg. unfold top_slice in Hg.
  apply elem_of_take in Hg as (i & Hi%list_elem_of_lookup_2 & _).
  unfold candidates in Hi. by apply list_elem_of_filter in Hi as [? _].
Qed.

(** With [layer=None], [_compute_score] raises what the selection
    raises; once the selection is made, it raises [KeyError(None)]. *)
Lemma compute_score_layer_none gene_corr agg ascending n w :
  _compute_score gene_corr None agg ascending n w =
    match select_top_genes gene_corr ascending n w with
    | (Ok _, w1) => (Raise (KeyError None), w1)
    | (Raise e, w1) => (Raise e, w1)
    end.
Proof.
  unfold _compute_score. rewrite exec_bind_run.
  destruct (select_top_genes gene_corr ascending n w) as [[genes|e] w1] eqn:E;
    [|done].
  pose proof (select_top_genes_cases gene_corr ascending n w) as Hsel.
  cbv zeta in Hsel. rewrite E in Hsel. cbn [fst snd] in Hsel.
  destruct Hsel as (_ & _ & Hok & _).
  destruct (Hok genes eq_refl) as (-> & Hk & _).
  rewrite exec_bind_run. cbn [get_adata]. rewrite exec_bind_run. unfold lift.
  destruct (traverse_ok (var_index (var_names (adata w1)))
              (top_slice (adata w) gene_corr ascending n)) as [idx ->]; [|done].
  rewrite Hk. eapply Forall_impl; [apply top_slice_known|].
  intros g Hg. by apply var_index_ok.
Qed.

(** C9.  The check of the layer name rejects, with a [KeyError], exactly
    the names that are neither [None] nor ["X"] nor a key of [layers];
    [None] passes it.  With [layer=None] no run returns: the store is
    left as it was, and when the error is the [KeyError] of [None], the
    counts and correlations have been computed and the positive genes
    chosen; it is the lookup of the layer in the aggregation step that
    raises, which it does as soon as the selection is made. *)
Theorem layer_none_fails_late aggregation use_raw n_pos_genes n_neg_genes
    w r w' :
  compute_cytotrace None aggregation use_raw n_pos_genes n_neg_genes w = (r, w') →
  let a := adata w in
  let gene_corr := gene_corr_of a (effective_use_raw a use_raw) in
  (∀ layer v e v',
     check_layer layer v = (Raise e, v') ↔
     e = KeyError layer ∧ v' = v
     ∧ ∃ l, layer = Some l ∧ l ≠ "X" ∧ layers (adata v) !! l = None)
  ∧ check_layer None w = (Ok (), w)
  ∧ (∃ e, r = Raise e ∧ adata w' = a
       ∧ (e = KeyError None →
          Debug CorrelatingGenes ∈ logs w'
          ∧ ∃ w1 pos,
              adata w1 = a
              ∧ select_top_genes gene_corr false n_pos_genes w1 = (Ok pos, w')))
  ∧ (∀ gc agg ascending n v genes v1,
       select_top_genes gc ascending n v = (Ok genes, v1) →
       _compute_score gc None agg ascending n v = (Raise (KeyError None), v1)).
Proof.
  intros Hrun a gene_corr. split_and!.
  - intros layer v e v'. split.
    + intros Hc. apply check_layer_run in Hc as (-> & -> & Hnot & Hin).
      split_and!; [done|done|].
      destruct layer as [l|]; [|exfalso; apply Hnot; left].
      exists l. split_and!; [done| |].
      * intros ->. apply Hnot. right. left.
      * simpl in Hin. apply bool_decide_eq_false in Hin.
        destruct (layers (adata v) !! l) eqn:E; [|done].
        exfalso. apply Hin. by eexists.
    + intros (-> & -> & l & -> & Hl & Hnone).
      unfold check_layer. rewrite exec_bind_run. cbn [get_adata in_layers].
      rewrite Hnone. rewrite bool_decide_eq_true_2.
      2:{ intros [?|[?|?%elem_of_nil]%elem_of_cons]%elem_of_cons; by simplify_eq. }
      rewrite bool_decide_eq_false_2; [done|]. by intros [? ?].
  - done.
  - destruct r as [[]|e].
    + exfalso. apply compute_cytotrace_ok in Hrun. cbv zeta in Hrun.
      destruct Hrun as (agg & combined & pos & neg & score & _ & Hcomb & _).
      apply combined_in_parts in Hcomb as (ps & (v & v' & _ & Hs) & _).
      rewrite compute_score_layer_none in Hs.
      by destruct (select_top_genes _ _ _ _) as [[?|?] ?].
    + exists e. split_and!; [done|by apply compute_cytotrace_run in Hrun|].
      intros ->. apply compute_cytotrace_raises in Hrun. cbv zeta in Hrun.
      destruct Hrun as [Hagg|(agg & Hagg & [Hl|[Hl|Hl]])].
      * unfold CytoTRACEAggregation_of in Hagg. by repeat case_decide.
      * destruct Hl as (_ & Hnot & _). exfalso. apply Hnot. left.
      * by destruct Hl.
      * destruct Hl as (w1 & w2 & Hw1 & Hlog & -> & Hc).
        fold a in Hw1, Hc. fold gene_corr in Hc.
        assert (∃ pos, select_top_genes gene_corr false n_pos_genes w1
                       = (Ok pos, w2)
                       ∧ ∀ l, l ∈ logs w1 → l ∈ logs w2) as (pos & Hsel & Hlogs).
        { destruct Hc as [Hc|(combined & pos & neg & Hc & Hnorm)].
          2:{ apply combined_score_run in Hc as (ps & v & Hs & _).
              rewrite compute_score_layer_none in Hs.
              by destruct (select_top_genes _ _ _ _) as [[?|?] ?]. }
          unfold combined_score in Hc. rewrite exec_bind_run in Hc.
          rewrite compute_score_layer_none in Hc.
          pose proof (select_top_genes_cases gene_corr false n_pos_genes w1)
            as Hfacts. cbv zeta in Hfacts.
          destruct (select_top_genes gene_corr false n_pos_genes w1)
            as [[pos|e] v] eqn:E; cbn [fst snd] in Hfacts.
          - injection Hc as <-. exists pos. split; [done|].
            destruct Hfacts as (_ & _ & Hok & _).
            destruct (Hok pos eq_refl) as (_ & _ & ->).
            intros l Hl. apply elem_of_app. by left.
          - injection Hc as -> <-.
            destruct Hfacts as (_ & Hraise & _).
            by destruct (Hraise _ eq_refl) as [[why ?] _]. }
        split; [by apply Hlogs|]. by exists w1, pos.
  - intros gc agg ascending n v genes v1 Hsel.
    rewrite compute_score_layer_none. by rewrite Hsel.
Qed.

End Selection.

(** * The order of the chosen genes *)

Lemma fle_trans x y z : fle x y = true → fle y z = true → fle x z = true.
Proof.
  destruct x as [a| | |], y as [b| | |], z as [c| | |]; simpl; try done.
  rewrite !Qc_leb_le. apply Qcle_trans.
Qed.

Lemma fle_total x y :
  isnan x = false → isnan y = false → fle x y = true ∨ fle y x = true.
Proof.
  destruct x as [a| | |], y as [b| | |]; simpl; try done; auto.
  intros _ _. rewrite !Qc_leb_le. apply (total Qcle).
Qed.

Global Instance in_direction_trans ascending :
  Transitive (λ e1 e2 : string * float64, in_direction ascending e1.2 e2.2).
Proof.
  intros e1 e2 e3. unfold in_direction. destruct ascending.
  - apply fle_trans.
  - intros ? ?. by eapply fle_trans.
Qed.

Lemma filter_fmap_comm {A B} (f : A → B) (P : B → Prop) (Q : A → Prop)
    `{!∀ y, Decision (P y)} `{!∀ x, Decision (Q x)} (l : list A) :
  (∀ x, P (f x) ↔ Q x) →
  filter P (f <$> l) = f <$> filter Q l.
Proof.
  intros HPQ. induction l as [|x l IH]; [done|].
  rewrite fmap_cons, !filter_cons, IH.
  destruct (decide (P (f x))) as [HP|HP], (decide (Q x)) as [HQ|HQ];
    try done; exfalso; by apply HPQ in HP || apply HPQ in HQ.
Qed.

Lemma StronglySorted_sublist {A} (R : relation A) (k l : list A) :
  k `sublist_of` l → StronglySorted R l → StronglySorted R k.
Proof.
  induction 1 as [|x k l Hkl IH|x k l Hkl IH]; intros Hl.
  - constructor.
  - apply StronglySorted_inv in Hl as [Hl Hx]. constructor; [by apply IH|].
    apply Forall_forall. intros y Hy.
    apply (proj1 (Forall_forall _ _) Hx). by eapply sublist_submseteq, elem_of_submseteq in Hkl.
  - apply StronglySorted_inv in Hl as [Hl _]. by apply IH.
Qed.

Lemma Sorted_sublist {A} (R : relation A) `{!Transitive R} (k l : list A) :
  k `sublist_of` l → Sorted R l → Sorted R k.
Proof.
  intros Hkl Hl. apply StronglySorted_Sorted.
  apply (StronglySorted_sublist R k l Hkl). by apply Sorted_StronglySorted.
Qed.

(** A prefix of [l1 ++ l2] that avoids what fills [l2] lies within [l1]. *)
Lemma take_app_avoiding {A} (P : A → Prop) n (l1 l2 : list A) :
  Forall P l2 → Forall (λ x, ¬ P x) (take n (l1 ++ l2)) →
  take n (l1 ++ l2) `sublist_of` l1.
Proof.
  intros H2 Hno. rewrite take_app in *.
  destruct (take (n - length l1) l2) as [|x t] eqn:E.
  - rewrite app_nil_r. apply sublist_take.
  - exfalso. apply Forall_app in Hno as [_ Hno].
    apply Forall_cons in Hno as [Hx _]. apply Hx.
    apply (proj1 (Forall_forall _ _) H2).
    assert (x ∈ take (n - length l1) l2) as Hin by (rewrite E; left).
    by apply elem_of_take in Hin as (i & ?%list_elem_of_lookup_2 & _).
Qed.

Section Order.
Context `{Externals}.


End Order.

(** * The sample library routines do what is asked of them *)

Lemma Sorted_weaken {A} (R R' : relation A) (P : A → Prop) l :
  (∀ x y, P x → P y → R x y → R' x y) →
  Forall P l → Sorted R l → Sorted R' l.
Proof.
  intros HR HP Hl. induction Hl as [|x l Hl IH Hhd]; [constructor|].
  apply Forall_cons in HP as [Hx HP]. constructor; [by apply IH|].
  destruct Hhd as [|y l Hxy]; constructor.
  apply Forall_cons in HP as [Hy _]. by apply HR.
Qed.

Lemma nan_split_perm (s : list (string * float64)) :
  filter (λ e, isnan e.2 = false) s ++ filter (λ e, isnan e.2 = true) s ≡ₚ s.
Proof.
  induction s as [|[g v] s IH]; [done|].
  rewrite !filter_cons. cbn [snd]. destruct (isnan v) eqn:E.
  - rewrite decide_False, decide_True by done.
    rewrite <- Permutation_middle. by constructor.
  - rewrite decide_True, decide_False by done. simpl. by constructor.
Qed.

Module SampleFacts.
Import Sample.

Global Instance entry_le_total : Total entry_le.
Proof.
  intros [g1 v1] [g2 v2]. unfold entry_le. cbn [snd].
  destruct (isnan v1) eqn:E1; [by right|].
  destruct (isnan v2) eqn:E2; [by left|].
  cbn [orb]. by apply fle_total.
Qed.

Lemma sorted_values_spec : sort_values_spec.
Proof.
  split.
  - intros ascending s. cbn [sort_values externals]. unfold sorted_values.
    etrans; [|apply (nan_split_perm s)]. apply Permutation_app_tail.
    destruct ascending.
    + apply merge_sort_Permutation.
    + rewrite reverse_Permutation. apply merge_sort_Permutation.
  - intros ascending s. cbn [sort_values externals]. unfold sorted_values.
    set (good := filter (λ e, isnan e.2 = false) s).
    set (bad := filter (λ e, isnan e.2 = true) s).
    assert (Forall (λ e : string * float64, isnan e.2 = false)
              (merge_sort entry_le good)) as Hgood.
    { rewrite merge_sort_Permutation. apply Forall_forall.
      by intros e [? _]%list_elem_of_filter. }
    pose proof (Sorted_merge_sort entry_le good) as Hsorted.
    eexists _, bad. split_and!; [done| | |].
    + destruct ascending; [done|]. by rewrite reverse_Permutation.
    + apply Forall_forall. by intros e [? _]%list_elem_of_filter.
    + destruct ascending.
      * eapply Sorted_weaken; [|exact Hgood|exact Hsorted].
        intros e1 e2 _ H2. unfold entry_le, in_direction. by rewrite H2.
      * eapply Sorted_weaken;
          [| |apply Sorted_reverse; exact Hsorted].
        2:{ by rewrite reverse_Permutation. }
        intros e1 e2 H1 _. unfold flip, entry_le, in_direction.
        cbn beta. by rewrite H1.
Qed.

End SampleFacts.

(** * [ConnectivityMixin._density_normalize] *)

Definition ncols (M : matrix) : nat :=
  match M with
  | [] => 0%nat
  | row :: _ => length row
  end.

Definition matrix_col (j : nat) (M : matrix) : list float64 :=
  map (λ row, default NaN (row !! j)) M.

(** [conn.sum(axis=0)]: the rows are added up, which gives one sum per
    column. *)
Definition sum_axis0 (conn : matrix) : list float64 :=
  foldl (zip_with fadd) (replicate (ncols conn) (Fin 0)) conn.

(** [Q] is the sparse diagonal matrix [spdiags(d, 0, n, n)]; a product
    with it goes over its stored entries only.  [Q @ M] multiplies row
    [i] of [M] by [d[i]]; a row beyond the stored diagonal is zero. *)
Definition scale_rows (d : list float64) (M : matrix) : matrix :=
  imap (λ i row,
    match d !! i with
    | Some c => map (fmul c) row
    | None => map (λ _, Fin 0) row
    end) M.

(** [M @ Q] multiplies column [j] of [M] by [d[j]]. *)
Definition scale_columns (d : list float64) (M : matrix) : matrix :=
  map (λ row,
    imap (λ j x,
      match d !! j with
      | Some c => fmul c x
      | None => Fin 0
      end) row) M.

Definition _density_normalize (conn mat : matrix) : result matrix :=
  let q := sum_axis0 conn in
  let n := length mat in                       (* [matrix.shape[0]] *)
  let Q := map (fdiv (Fin 1)) q in             (* the diagonal [1.0 / q] *)
  let QM := scale_rows Q mat in                (* [Q @ matrix], n x k *)
  (* [(Q @ matrix) @ Q] needs k = n *)
  if forallb (λ row, length row =? n)%nat QM
  then Ok (scale_columns Q QM)
  else Raise (ValueError DimensionMismatch).

(** The words of the specification, for comparison: the degrees are the
    sums along the rows, [Q] is the diagonal matrix of their inverses,
    and the result is the matrix product [Q . matrix . Q]. *)
Definition row_sums (conn : matrix) : list float64 := map fsum conn.

Definition diag (d : list float64) : matrix :=
  imap (λ i c, <[i := c]> (replicate (length d) (Fin 0))) d.

Definition dot (u v : list float64) : float64 := fsum (zip_with fmul u v).

Definition matmul (A B : matrix) : matrix :=
  map (λ row, map (λ j, dot row (matrix_col j B)) (seq 0 (ncols B))) A.

Definition density_normalize_spec (conn mat : matrix) : matrix :=
  let Q := diag (map (fdiv (Fin 1)) (row_sums conn)) in
  matmul (matmul Q mat) Q.

Fixpoint matrix_eqb (A B : matrix) : bool :=
  match A, B with
  | [], [] => true
  | r :: A, r' :: B => floats_eqb r r' && matrix_eqb A B
  | _, _ => false
  end.

(** ** No guard against a zero degree *)

Lemma signed_inf_not_finite a : isfinite (signed_inf a) = false.
Proof. unfold signed_inf. by destruct (Qc_ltb 0 a). Qed.

Lemma fmul_comm x y : fmul x y = fmul y x.
Proof.
  destruct x as [a| | |], y as [b| | |]; simpl; try done.
  by rewrite Qcmult_comm.
Qed.

Lemma fmul_inf_not_finite y : isfinite (fmul PInf y) = false.
Proof.
  destruct y as [b| | |]; simpl; try done.
  destruct (Qc_eqb b 0); [done|apply signed_inf_not_finite].
Qed.

Lemma fmul_not_finite c z : isfinite z = false → isfinite (fmul c z) = false.
Proof.
  destruct z as [b| | |], c as [a| | |]; simpl; try done; intros _.
  all: destruct (Qc_eqb a 0); [done|apply signed_inf_not_finite].
Qed.

Lemma length_scale_rows d M : length (scale_rows d M) = length M.
Proof. unfold scale_rows. by rewrite length_imap. Qed.

Lemma lookup_scale_rows d M i :
  scale_rows d M !! i =
    (λ row, match d !! i with
            | Some c => map (fmul c) row
            | None => map (λ _, Fin 0) row
            end) <$> M !! i.
Proof. unfold scale_rows. by rewrite list_lookup_imap. Qed.

Lemma lookup_scale_columns d M i :
  scale_columns d M !! i =
    (λ row, imap (λ j x, match d !! j with
                         | Some c => fmul c x
                         | None => Fin 0
                         end) row) <$> M !! i.
Proof. unfold scale_columns. by rewrite list_lookup_fmap. Qed.

Lemma scale_rows_row_length d M n :
  Forall (λ row, length row = n) M →
  Forall (λ row, length row = n) (scale_rows d M).
Proof.
  intros HM. apply Forall_lookup. intros i row.
  rewrite lookup_scale_rows. destruct (M !! i) as [r|] eqn:E; [|done].
  intros [= <-]. apply (proj1 (Forall_lookup _ _) HM) in E.
  destruct (d !! i); by rewrite length_map.
Qed.

(** On a square matrix, [_density_normalize] returns. *)
Lemma density_normalize_square conn M :
  Forall (λ row, length row = length M) M →
  _density_normalize conn M =
    Ok (scale_columns (map (fdiv (Fin 1)) (sum_axis0 conn))
          (scale_rows (map (fdiv (Fin 1)) (sum_axis0 conn)) M)).
Proof.
  intros HM. unfold _density_normalize.
  pose proof (scale_rows_row_length
                (map (fdiv (Fin 1)) (sum_axis0 conn)) M _ HM) as Hrows.
  rewrite (proj2 (forallb_forall _ _)); [done|].
  intros row Hrow%list_elem_of_In. apply Nat.eqb_eq.
  by apply (proj1 (Forall_forall _ _) Hrows).
Qed.


(** ** The degrees are the sums down the columns *)

Lemma lookup_matrix_col j (M : matrix) i :
  matrix_col j M !! i = (λ row, default NaN (row !! j)) <$> M !! i.
Proof. unfold matrix_col. apply list_lookup_fmap. Qed.

Lemma foldl_zip_with_fadd_lookup (rows : matrix) acc j a :
  Forall (λ row, length row = length acc) rows →
  acc !! j = Some a →
  foldl (zip_with fadd) acc rows !! j = Some (foldl fadd a (matrix_col j rows)).
Proof.
  revert acc a. induction rows as [|row rows IH]; intros acc a Hlen Ha; [done|].
  apply Forall_cons in Hlen as [Hrow Hrows]. cbn [foldl matrix_col map].
  destruct (row !! j) as [r|] eqn:Er.
  2:{ apply lookup_ge_None in Er. apply lookup_lt_Some in Ha. lia. }
  cbn [default]. apply IH.
  - rewrite length_zip_with. eapply Forall_impl; [exact Hrows|].
    intros ? ->. lia.
  - rewrite lookup_zip_with, Ha, Er. done.
Qed.

Lemma length_foldl_zip_with_fadd (rows : matrix) acc :
  Forall (λ row, length row = length acc) rows →
  length (foldl (zip_with fadd) acc rows) = length acc.
Proof.
  revert acc. induction rows as [|row rows IH]; intros acc Hlen; [done|].
  apply Forall_cons in Hlen as [Hrow Hrows]. cbn [foldl].
  rewrite IH; rewrite length_zip_with; [lia|].
  eapply Forall_impl; [exact Hrows|]. intros ? ->. lia.
Qed.

(** [q[j]] is the sum over [i] of [conn[i, j]]. *)
Lemma sum_axis0_column_sums (conn : matrix) :
  Forall (λ row, length row = ncols conn) conn →
  length (sum_axis0 conn) = ncols conn
  ∧ ∀ j, (j < ncols conn)%nat →
      sum_axis0 conn !! j = Some (fsum (matrix_col j conn)).
Proof.
  intros Hrect. unfold sum_axis0. split.
  - rewrite length_foldl_zip_with_fadd; rewrite length_replicate; done.
  - intros j Hj. apply foldl_zip_with_fadd_lookup.
    + by rewrite length_replicate.
    + by apply lookup_replicate_2.
Qed.

(** ** Products with a diagonal matrix *)

Definition onehot (n j : nat) (c : float64) : list float64 :=
  <[j := c]> (replicate n (Fin 0)).

Lemma zip_with_fmul_comm u v : zip_with fmul u v = zip_with fmul v u.
Proof.
  revert v. induction u as [|x u IH]; intros [|y v]; simpl; try done.
  by rewrite fmul_comm, IH.
Qed.

Lemma dot_comm u v : dot u v = dot v u.
Proof. unfold dot. by rewrite zip_with_fmul_comm. Qed.

Lemma foldl_fadd_zeros u n a :
  Forall (λ x, isfinite x = true) u →
  foldl fadd (Fin a) (zip_with fmul u (replicate n (Fin 0))) = Fin a.
Proof.
  intros Hu. revert n a. induction Hu as [|x u Hx Hu IH]; intros n a; [done|].
  destruct n as [|n]; [done|]. destruct x as [y| | |]; try done.
  cbn [replicate zip_with foldl fmul fadd].
  rewrite Qcmult_0_r, Qcplus_0_r. apply IH.
Qed.

Lemma foldl_fadd_onehot u n j x c a :
  Forall (λ x, isfinite x = true) u →
  u !! j = Some x → (j < n)%nat →
  foldl fadd (Fin a) (zip_with fmul u (onehot n j (Fin c)))
  = fadd (Fin a) (fmul x (Fin c)).
Proof.
  unfold onehot. intros Hu. revert n j a.
  induction Hu as [|y u Hy Hu IH]; intros n j a Hx Hj; [done|].
  destruct n as [|n]; [lia|]. destruct y as [y| | |]; try done.
  destruct j as [|j].
  - injection Hx as <-. cbn [replicate insert list_insert zip_with foldl fmul fadd].
    by apply foldl_fadd_zeros.
  - cbn [replicate insert list_insert zip_with foldl fmul fadd].
    rewrite Qcmult_0_r, Qcplus_0_r. apply IH; [done|lia].
Qed.

Lemma dot_onehot_r u n j x c :
  Forall (λ x, isfinite x = true) u →
  u !! j = Some x → (j < n)%nat →
  dot u (onehot n j (Fin c)) = fmul (Fin c) x.
Proof.
  intros Hu Hx Hj. unfold dot, fsum.
  rewrite (foldl_fadd_onehot u n j x c) by done.
  assert (isfinite x = true) as Hfin.
  { apply list_elem_of_lookup_2 in Hx.
    by apply (proj1 (Forall_forall _ _) Hu). }
  destruct x as [y| | |]; try done. cbn [fmul fadd].
  by rewrite Qcplus_0_l, Qcmult_comm.
Qed.

Lemma dot_onehot_l u n j x c :
  Forall (λ x, isfinite x = true) u →
  u !! j = Some x → (j < n)%nat →
  dot (onehot n j (Fin c)) u = fmul (Fin c) x.
Proof. intros. rewrite dot_comm. by apply dot_onehot_r. Qed.

Lemma lookup_diag d i :
  diag d !! i = (λ c, onehot (length d) i c) <$> d !! i.
Proof. unfold diag, onehot. by rewrite list_lookup_imap. Qed.

Lemma ncols_diag d : ncols (diag d) = length d.
Proof.
  destruct d as [|c d]; [done|]. unfold diag. rewrite imap_cons.
  cbn [ncols]. by rewrite length_insert, length_replicate.
Qed.

Lemma lookup_onehot n j c i :
  onehot n j c !! i =
    if decide (j = i ∧ (j < n)%nat) then Some c
    else if decide (i < n)%nat then Some (Fin 0) else None.
Proof.
  unfold onehot. rewrite list_lookup_insert, length_replicate.
  destruct (decide (j = i ∧ (j < n)%nat)) as [[-> ?]|Hne].
  - done.
  - destruct (decide (i < n)%nat).
    + by apply lookup_replicate_2.
    + apply lookup_replicate_None. lia.
Qed.

Lemma matrix_col_diag d j c :
  d !! j = Some c → matrix_col j (diag d) = onehot (length d) j c.
Proof.
  intros Hj. apply lookup_lt_Some in Hj as Hlt. apply list_eq. intros i.
  rewrite lookup_matrix_col, lookup_diag, !lookup_onehot.
  destruct (d !! i) as [c'|] eqn:Ei.
  - apply lookup_lt_Some in Ei as Hi. cbn [fmap option_fmap option_map].
    rewrite lookup_onehot.
    destruct (decide (i = j)) as [->|Hne].
    + rewrite !decide_True by done. cbn [default from_option id].
      rewrite Hj in Ei. by injection Ei as ->.
    + rewrite (decide_False (P := i = j ∧ _)) by (by intros [? _]).
      rewrite (decide_False (P := j = i ∧ _)) by (by intros [? _]).
      by rewrite !decide_True by done.
  - apply lookup_ge_None in Ei. cbn [fmap option_fmap option_map].
    rewrite (decide_False (P := j = i ∧ _)) by (intros [? _]; lia).
    by rewrite decide_False by lia.
Qed.

Lemma matrix_col_finite (M : matrix) j n :
  Forall (Forall (λ x, isfinite x = true)) M →
  Forall (λ row, length row = n) M → (j < n)%nat →
  Forall (λ x, isfinite x = true) (matrix_col j M).
Proof.
  intros Hfin Hlen Hj. apply Forall_forall. intros x Hx.
  apply list_elem_of_fmap in Hx as (row & -> & Hrow).
  destruct (row !! j) as [y|] eqn:E.
  - cbn [default]. apply list_elem_of_lookup_2 in E.
    by apply (proj1 (Forall_forall _ _) (proj1 (Forall_forall _ _) Hfin row Hrow)).
  - apply lookup_ge_None in E.
    rewrite (proj1 (Forall_forall _ _) Hlen row Hrow) in E. lia.
Qed.

(** The product with the dense diagonal matrix on the right scales the
    columns. *)
Lemma matmul_diag_r d (M : matrix) :
  Forall (λ row, length row = length d) M →
  Forall (λ x, isfinite x = true) d →
  Forall (Forall (λ x, isfinite x = true)) M →
  matmul M (diag d) = scale_columns d M.
Proof.
  intros Hlen Hd HM. unfold matmul, scale_columns. rewrite ncols_diag.
  apply Forall_fmap_ext, Forall_forall. intros row Hrow.
  pose proof (proj1 (Forall_forall _ _) Hlen row Hrow) as Hrl.
  pose proof (proj1 (Forall_forall _ _) HM row Hrow) as Hrf.
  cbn beta in Hrl, Hrf.
  apply list_eq. intros j. rewrite list_lookup_imap.
  change (map ?f ?l) with (f <$> l). rewrite list_lookup_fmap.
  destruct (decide (j < length d)%nat) as [Hj|Hj].
  - rewrite lookup_seq_lt by done. cbn [fmap option_fmap option_map Nat.add].
    destruct (lookup_lt_is_Some_2 d j Hj) as [c Hc].
    destruct (lookup_lt_is_Some_2 row j) as [x Hx]; [lia|].
    rewrite Hx, Hc. cbn [fmap option_fmap option_map]. f_equal.
    rewrite (matrix_col_diag d j c Hc).
    assert (isfinite c = true) as Hcf.
    { apply list_elem_of_lookup_2 in Hc. by apply (proj1 (Forall_forall _ _) Hd). }
    destruct c as [c| | |]; try done. by apply dot_onehot_r.
  - rewrite lookup_seq_ge by lia. rewrite (lookup_ge_None_2 row); [done|lia].
Qed.

(** The product with the dense diagonal matrix on the left scales the
    rows. *)
Lemma matmul_diag_l d (M : matrix) :
  length d = length M →
  Forall (λ row, length row = length M) M →
  Forall (λ x, isfinite x = true) d →
  Forall (Forall (λ x, isfinite x = true)) M →
  matmul (diag d) M = scale_rows d M.
Proof.
  intros Hdlen Hlen Hd HM. unfold matmul. apply list_eq. intros i.
  rewrite lookup_scale_rows. change (map ?f ?l) with (f <$> l) at 1.
  rewrite list_lookup_fmap, lookup_diag.
  destruct (M !! i) as [row|] eqn:Erow.
  2:{ apply lookup_ge_None in Erow. rewrite (lookup_ge_None_2 d); [done|lia]. }
  apply lookup_lt_Some in Erow as Hi.
  destruct (lookup_lt_is_Some_2 d i) as [c Hc]; [lia|].
  rewrite Hc. cbn [fmap option_fmap option_map]. f_equal.
  assert (ncols M = length M) as ->.
  { destruct M as [|r M]; [done|]. cbn [ncols].
    by apply Forall_cons in Hlen as [? _]. }
  pose proof (proj1 (Forall_lookup _ _) Hlen i row Erow) as Hrl.
  cbn beta in Hrl.
  assert (isfinite c = true) as Hcf.
  { apply list_elem_of_lookup_2 in Hc. by apply (proj1 (Forall_forall _ _) Hd). }
  destruct c as [c| | |]; try done.
  apply list_eq. intros j. change (map ?f ?l) with (f <$> l).
  rewrite !list_lookup_fmap.
  destruct (decide (j < length M)%nat) as [Hj|Hj].
  - rewrite lookup_seq_lt by done. cbn [fmap option_fmap option_map Nat.add].
    destruct (lookup_lt_is_Some_2 row j) as [x Hx]; [lia|].
    rewrite Hx. cbn [fmap option_fmap option_map]. f_equal.
    rewrite Hdlen. apply dot_onehot_l; [by eapply matrix_col_finite| |done].
    by rewrite lookup_matrix_col, Erow; cbn; rewrite Hx.
  - rewrite lookup_seq_ge by lia. rewrite (lookup_ge_None_2 row); [done|lia].
Qed.

Lemma scale_rows_finite d (M : matrix) :
  Forall (λ x, isfinite x = true) d →
  Forall (Forall (λ x, isfinite x = true)) M →
  Forall (Forall (λ x, isfinite x = true)) (scale_rows d M).
Proof.
  intros Hd HM. apply Forall_lookup. intros i row.
  rewrite lookup_scale_rows. destruct (M !! i) as [r|] eqn:E; [|done].
  intros [= <-]. pose proof (proj1 (Forall_lookup _ _) HM i r E) as Hr.
  cbn beta in Hr. destruct (d !! i) as [c|] eqn:Ec.
  - assert (isfinite c = true) as Hc.
    { apply list_elem_of_lookup_2 in Ec. by apply (proj1 (Forall_forall _ _) Hd). }
    apply Forall_fmap. eapply Forall_impl; [exact Hr|].
    intros x Hx. by destruct c, x.
  - apply Forall_fmap. by eapply Forall_impl; [exact Hr|].
Qed.

Lemma inverse_degrees_finite q :
  Forall (λ x, isfinite x = true ∧ x ≠ Fin 0) q →
  Forall (λ x, isfinite x = true) (map (fdiv (Fin 1)) q).
Proof.
  intros Hq. apply Forall_fmap. eapply Forall_impl; [exact Hq|].
  intros [b| | |] [Hfin Hne]; try done. simpl.
  destruct (Qc_eqb b 0) eqn:E; [|done].
  apply Qc_eqb_eq in E. by subst.
Qed.


(** * The theorems at work on the sample data *)

Section Examples.
Import Sample.

Lemma errors_precede_store_writes_witness :
  (compute_cytotrace (Some "Ms") "mean" false 0 None (start graded)).1
  = Raise (ValueError (NonPositiveTopGenes false 0))
  ∧ adata (compute_cytotrace (Some "Ms") "mean" false 0 None (start graded)).2
    = adata (start graded).
Proof.
  split; [vm_compute; reflexivity|].
  apply (errors_precede_store_writes (Some "Ms") "mean" false 0 None
           (start graded) (ValueError (NonPositiveTopGenes false 0))).
  vm_compute. reflexivity.
Defined.

Lemma pseudotime_is_one_minus_score_witness :
  ∃ score pseudotime,
    obs (adata graded_run.2) !! "ct_score" = Some (FloatCol score)
    ∧ obs (adata graded_run.2) !! "ct_pseudotime" = Some (FloatCol pseudotime)
    ∧ Forall2 (λ s p, p = fsub (Fin 1) s) score pseudotime.
Proof.
  apply (pseudotime_is_one_minus_score (Some "Ms") "mean" false 2 (Some 1%Z)
           (start graded) graded_run.2).
  vm_compute. reflexivity.
Defined.

Lemma combined_score_formula_witness :
  let a := adata (start graded) in
  let gene_corr := gene_corr_of a (effective_use_raw a false) in
  ∃ agg combined pos pos_score score,
    CytoTRACEAggregation_of "mean" = Ok agg
    ∧ scored a gene_corr (Some "Ms") agg false 2 pos_score pos
    ∧ (∃ inv_score neg m,
         scored a gene_corr (Some "Ms") agg true 1 inv_score neg
         ∧ np_max inv_score = Ok m
         ∧ Forall3 (λ p i c, c = fadd p (fsub m i)) pos_score inv_score combined)
    ∧ normalize combined = Ok score
    ∧ obs (adata graded_run.2) !! "ct_score" = Some (FloatCol score).
Proof.
  apply (combined_score_formula (Some "Ms") "mean" false 2 (Some 1%Z)
           (start graded) graded_run.2).
  vm_compute. reflexivity.
Defined.

Lemma correlate_flags_are_reset_witness :
  let a := adata (start graded) in
  let gene_corr := gene_corr_of a (effective_use_raw a false) in
  ∃ agg pos pos_score,
    CytoTRACEAggregation_of "mean" = Ok agg
    ∧ scored a gene_corr (Some "Ms") agg false 2 pos_score pos
    ∧ var (adata graded_run.2) !! "ct_pos_correlates"
      = Some (BoolCol (map (λ g, bool_decide (g ∈ pos)) (var_names a)))
    ∧ ∃ neg inv_score,
        scored a gene_corr (Some "Ms") agg true 1 inv_score neg
        ∧ var (adata graded_run.2) !! "ct_neg_correlates"
          = Some (BoolCol (map (λ g, bool_decide (g ∈ neg)) (var_names a))).
Proof.
  apply (correlate_flags_are_reset (Some "Ms") "mean" false 2 (Some 1%Z)
           (start graded) graded_run.2).
  vm_compute. reflexivity.
Defined.



Lemma layer_none_fails_late_witness :
  let out := compute_cytotrace None "mean" false 2 (Some 1%Z) (start graded) in
  out.1 = Raise (KeyError None)
  ∧ ∃ e, out.1 = Raise e ∧ adata out.2 = adata (start graded)
      ∧ (e = KeyError None →
         Debug CorrelatingGenes ∈ logs out.2
         ∧ ∃ w1 pos,
             adata w1 = adata (start graded)
             ∧ select_top_genes
                 (gene_corr_of (adata (start graded))
                    (effective_use_raw (adata (start graded)) false))
                 false 2 w1 = (Ok pos, out.2)).
Proof.
  cbv zeta. split; [vm_compute; reflexivity|].
  apply (layer_none_fails_late "mean" false 2 (Some 1%Z) (start graded)
           (compute_cytotrace None "mean" false 2 (Some 1%Z) (start graded)).1
           (compute_cytotrace None "mean" false 2 (Some 1%Z) (start graded)).2).
  vm_compute. reflexivity.
Defined.


(** Genes with equal correlations are in the order of the series. *)
Definition ties_keep_input_order (gene_corr : Series) (genes : list string)
    : Prop :=
  ∀ i j gi gj v pi pj,
    (i < j)%nat → genes !! i = Some gi → genes !! j = Some gj →
    gene_corr !! pi = Some (gi, v) → gene_corr !! pj = Some (gj, v) →
    (pi < pj)%nat.






End Examples.
